(** * dynamic_overload: run-time overload resolution

    A shallow embedding of [src/dynamic_overload/overload.py] and the
    properties of its scoring, conflict detection, registration and dispatch.

    Python objects are modelled as follows.
    - A runtime value is an opaque object that knows the classes it is an
      instance of (its class and every base class, virtual ones included),
      which is all that [isinstance] looks at.
    - A type hint is a small syntax tree: absent, [Any], a class, a hint
      with an [__origin__], a [types.UnionType] (it has [__args__]), or some
      other object that is not a class.
    - [inspect.Signature] is an ordered list of parameters, looked up by name.
    - Exceptions are values of an error type; a call yields an [Outcome]. *)

From stdpp Require Import base list strings gmap.
From Stdlib Require Import ZArith Lia.

Local Open Scope Z_scope.

(** ** Runtime values, exceptions *)

Record Value := mkValue {
  v_classes : list string;
    (* the classes [isinstance] accepts for this object: its own class
       first, then the bases in method resolution order *)
  v_payload : Z              (* what tells two objects of one class apart *)
}.

Definition isinstance (arg : Value) (cls : string) : bool :=
  bool_decide (cls ∈ v_classes arg).

Inductive Exn :=
| TypeError
| NoMatchingOverloadException
| OtherException (name : string).

Inductive Outcome :=
| Returned (v : Value)
| Raised (e : Exn).

Inductive Result (A : Type) :=
| Ok (a : A)
| Err (e : Exn).
Arguments Ok {A} a.
Arguments Err {A} e.

#[global] Instance Exn_eqdec : EqDecision Exn.
Proof. solve_decision. Defined.

#[global] Instance Result_eqdec {A} `{EqDecision A} : EqDecision (Result A).
Proof. solve_decision. Defined.

(** ** Type hints *)

#[warnings="-register-all"]
Inductive TypeHint :=
| HEmpty                                      (* Parameter.empty *)
| HAny                                        (* typing.Any *)
| HClass (cls : string)                       (* int, str, ... *)
| HGeneric (origin : TypeHint) (args : list TypeHint)
    (* any hint with an __origin__: list[int] (origin list),
       typing.Union[int, str] and Optional[int] (origin typing.Union, which
       is not a class), Annotated[Any, ...] (origin Any) *)
| HUnion (members : list TypeHint)            (* int | str: a types.UnionType *)
| HNotAClass (name : string).
    (* any other object that is neither a class nor one of the above:
       typing.Union itself, typing.Literal, a type variable, a string;
       [isinstance] raises TypeError on it *)

Fixpoint TypeHint_eq_dec (a b : TypeHint) {struct a} : {a = b} + {a <> b}.
Proof.
  decide equality;
    first [ apply String.string_dec | apply (List.list_eq_dec TypeHint_eq_dec) ].
Defined.

#[global] Instance TypeHint_eqdec : EqDecision TypeHint := TypeHint_eq_dec.

(** [hasattr(hint, "__origin__")] and [hint.__origin__]. *)
Definition erase_origin (hint : TypeHint) : TypeHint :=
  match hint with
  | HGeneric origin _ => origin
  | _ => hint
  end.

Definition isinstance_UnionType (hint : TypeHint) : bool :=
  match hint with HUnion _ => true | _ => false end.

(** [hint.__args__] of a union. *)
Definition union_args (hint : TypeHint) : list TypeHint :=
  match hint with HUnion ms => ms | _ => [] end.

(** ** inspect.Parameter (here [Param]) and inspect.Signature *)

Inductive ParamKind :=
| POSITIONAL_ONLY
| POSITIONAL_OR_KEYWORD
| VAR_POSITIONAL
| KEYWORD_ONLY
| VAR_KEYWORD.

#[global] Instance ParamKind_eqdec : EqDecision ParamKind.
Proof. solve_decision. Defined.

Record Param := mkParam {
  p_name : string;
  p_kind : ParamKind;
  p_annotation : TypeHint;
  p_default : option Value      (* None is Parameter.empty *)
}.

(** [sig.parameters]: an ordered mapping from names to parameters. *)
Abbreviation Signature := (list Param) (only parsing).

(** [sig.parameters[name]] / [name in sig.parameters]. *)
Definition get_parameter (sig : Signature) (name : string) : option Param :=
  list_find (fun p => p_name p = name) sig ≫= fun ip => Some ip.2.

(** A signature never holds two parameters of one name. *)
Definition Signature_wf (sig : Signature) : Prop := NoDup (p_name <$> sig).

(** ** Bound arguments

    What [BoundArguments.arguments] maps a parameter name to: one value, the
    tuple bound to [*args], or the dict bound to [**kwargs]. *)

Inductive Arg :=
| ASingle (v : Value)
| ATuple (vs : list Value)
| ADict (kvs : list (string * Value)).

Abbreviation BoundArguments := (list (string * Arg)) (only parsing).

(** Python's [sum] over integers. *)
Definition py_sum (xs : list Z) : Z := foldr Z.add 0 xs.

(** ** The Type Score Matcher: [_score_type_hint]

    The result is a score, or the exception the call raises: [isinstance]
    raises [TypeError] when its second argument is not a class, which is the
    case of [typing.Union] (the origin of [typing.Union[...]] and of
    [Optional[...]]) and of a hint that is still parameterized after one
    erasure.  The erasure is applied once, to the hint of each call. *)

Fixpoint _score_type_hint (arg : Value) (hint : TypeHint) {struct hint} : Result Z :=
  match hint with
  (* Remove parameterized types (e.g. List[int] -> List): the tests below
     are made on the origin *)
  | HGeneric origin _ =>
      match origin with
      | HEmpty | HAny => Ok 0
      | HUnion members =>
          (fix any_subhint (subhints : list TypeHint) : Result Z :=
             match subhints with
             | [] => Ok (-1)
             | subhint :: rest =>
                 match _score_type_hint arg subhint with
                 | Err e => Err e
                 | Ok score => if 0 <? score then Ok 1 else any_subhint rest
                 end
             end) members
      | HClass cls => if isinstance arg cls then Ok 1 else Ok (-1)
      | HGeneric _ _ | HNotAClass _ => Err TypeError
      end
  | HEmpty | HAny => Ok 0
  | HUnion members =>
      (fix any_subhint (subhints : list TypeHint) : Result Z :=
         match subhints with
         | [] => Ok (-1)
         | subhint :: rest =>
             match _score_type_hint arg subhint with
             | Err e => Err e
             | Ok score => if 0 <? score then Ok 1 else any_subhint rest
             end
         end) members
  | HClass cls => if isinstance arg cls then Ok 1 else Ok (-1)
  | HNotAClass _ => Err TypeError
  end.

(** The loop over the members of a union, and the body of
    [_score_type_hint] after the erasure, as [_score_type_hint] runs them
    ([score_type_hint_erased] below). *)
Fixpoint score_members (arg : Value) (subhints : list TypeHint) : Result Z :=
  match subhints with
  | [] => Ok (-1)
  | subhint :: rest =>
      match _score_type_hint arg subhint with
      | Err e => Err e
      | Ok score => if 0 <? score then Ok 1 else score_members arg rest
      end
  end.

Definition score_after_erasure (arg : Value) (hint : TypeHint) : Result Z :=
  match hint with
  | HEmpty | HAny => Ok 0
  | HUnion members => score_members arg members
  | HClass cls => if isinstance arg cls then Ok 1 else Ok (-1)
  | HGeneric _ _ | HNotAClass _ => Err TypeError
  end.

(** ** [_score_any_type_hint]: one bound argument against its parameter

    [inspect] binds a tuple to a [*args] parameter, a dict to a [**kwargs]
    parameter and a single value to any other ([bind_shapes] below), so the
    last case is never reached from a dispatcher. *)

(** [sum(_score_type_hint(a, hint) for a in values)]: the first value whose
    score raises ends the sum with its exception. *)
Fixpoint sum_scores (hint : TypeHint) (values : list Value) : Result Z :=
  match values with
  | [] => Ok 0
  | a :: rest =>
      match _score_type_hint a hint with
      | Err e => Err e
      | Ok score =>
          match sum_scores hint rest with
          | Err e => Err e
          | Ok total => Ok (score + total)
          end
      end
  end.

Definition _score_any_type_hint (arg : Arg) (param : Param) : Result Z :=
  let hint := p_annotation param in
  match p_kind param, arg with
  | VAR_POSITIONAL, ATuple vs => sum_scores hint vs
  | VAR_KEYWORD, ADict kvs => sum_scores hint kvs.*2
  | (POSITIONAL_ONLY | POSITIONAL_OR_KEYWORD | KEYWORD_ONLY), ASingle v =>
      _score_type_hint v hint
  | _, _ => Ok (-1)
  end.

(** ** The Signature Scorer: [_signature_matches] *)

Fixpoint signature_matches_loop (sig : Signature)
    (items : list (string * Arg)) (score : Z) : Result Z :=
  match items with
  | [] => Ok score
  | (name, arg) :: rest =>
      match get_parameter sig name with
      | None => Err (OtherException "KeyError")
          (* not reached: bound names are parameter names *)
      | Some param =>
          match _score_any_type_hint arg param with
          | Err e => Err e
          | Ok partial_score =>
              if partial_score <? 0 then Ok (-1)
              else signature_matches_loop sig rest (score + partial_score)
          end
      end
  end.

Definition _signature_matches (sig : Signature) (bound_args : BoundArguments)
    : Result Z :=
  signature_matches_loop sig bound_args 0.

(** ** The Conflict Detector: [_overlap_signature] *)

(** [sum(1 for param in sig.parameters.values() if param.default is not Parameter.empty)] *)
Definition len_defaults (sig : Signature) : Z :=
  py_sum ((fun _ => 1) <$> filter (fun param => is_Some (p_default param)) sig).

Definition len_parameters (sig : Signature) : Z := Z.of_nat (length sig).

(** The condition of the preventive check on default values; when it holds
    the detector returns [False]. *)
Definition arity_mismatch (sig1 sig2 : Signature) : bool :=
  let len_sig1_defaults := len_defaults sig1 in
  let len_sig2_defaults := len_defaults sig2 in
  bool_decide (len_parameters sig1 ≠ len_parameters sig2)
  && bool_decide (len_parameters sig1 ≠ len_parameters sig2 - len_sig2_defaults)
  && bool_decide (len_parameters sig1 - len_sig1_defaults ≠ len_parameters sig2)
  && bool_decide (len_parameters sig1 - len_sig1_defaults
                  ≠ len_parameters sig2 - len_sig2_defaults).

Definition is_empty_or_Any (hint : TypeHint) : bool :=
  match hint with HEmpty | HAny => true | _ => false end.

(** The body of the loop for one parameter name present on both sides:
    [true] lets the loop go on, [false] is [return False]. *)
Definition annotations_compatible (annotation other_annotation : TypeHint) : bool :=
  (* Remove parameterized types (e.g. List[int] -> List) *)
  let annotation := erase_origin annotation in
  let other_annotation := erase_origin other_annotation in
  (* Handle non-annotated parameters and parameters with Any type *)
  if is_empty_or_Any annotation || is_empty_or_Any other_annotation then true
  (* Handle Union types and Optional types *)
  else if isinstance_UnionType annotation || isinstance_UnionType other_annotation then
    let params1 :=
      if isinstance_UnionType annotation then union_args annotation else [annotation] in
    let params2 :=
      if isinstance_UnionType other_annotation
      then union_args other_annotation else [other_annotation] in
    (* Sort by length *)
    let '(params1, params2) :=
      if bool_decide (length params2 < length params1)%nat
      then (params2, params1) else (params1, params2) in
    existsb (fun p => bool_decide (p ∈ params2)) params1
  (* Handle non-Union types *)
  else bool_decide (annotation = other_annotation).

Fixpoint overlap_loop (items : list Param) (sig2 : Signature) : bool :=
  match items with
  | [] => true
  | param :: rest =>
      match get_parameter sig2 (p_name param) with
      | None => overlap_loop rest sig2           (* continue *)
      | Some other_param =>
          if annotations_compatible (p_annotation param) (p_annotation other_param)
          then overlap_loop rest sig2
          else false
      end
  end.

Definition _overlap_signature (sig1 sig2 : Signature) : bool :=
  if arity_mismatch sig1 sig2 then false
  else overlap_loop sig1 sig2.

(** ** [inspect.Signature.bind] followed by [BoundArguments.apply_defaults]

    The standard library's binding of call arguments to a signature, as in
    CPython 3.10 to 3.12.  [None] stands for the [TypeError] that [bind]
    raises (too many positional arguments, a missing required argument,
    several values for one parameter, an unexpected keyword, a positional-only
    parameter passed as a keyword). *)

Abbreviation Kwargs := (list (string * Value)) (only parsing).

Definition kwargs_get (kwargs : Kwargs) (name : string) : option Value :=
  list_find (fun kv => kv.1 = name) kwargs ≫= fun ikv => Some ikv.2.2.

Definition kwargs_pop (kwargs : Kwargs) (name : string) : Kwargs :=
  filter (fun kv => kv.1 ≠ name) kwargs.

(** The first loop of [Signature._bind]: positional arguments.  Returns the
    arguments bound so far and the parameters left for the keyword loop. *)
Fixpoint bind_positional (parameters : list Param) (args : list Value)
    (kwargs : Kwargs) (arguments : BoundArguments)
    : option (BoundArguments * list Param) :=
  match args with
  | [] =>
      (* No more positional arguments *)
      match parameters with
      | [] => Some (arguments, [])
      | param :: rest =>
          if decide (p_kind param = VAR_POSITIONAL) then Some (arguments, rest)
          else if is_Some_dec (kwargs_get kwargs (p_name param))
          then (if decide (p_kind param = POSITIONAL_ONLY) then None
                else Some (arguments, param :: rest))
          else if decide (p_kind param = VAR_KEYWORD) then Some (arguments, param :: rest)
          else if p_default param is Some _ then Some (arguments, param :: rest)
          else None
      end
  | arg_val :: arg_vals =>
      match parameters with
      | [] => None
      | param :: rest =>
          match p_kind param with
          | VAR_KEYWORD | KEYWORD_ONLY => None
          | VAR_POSITIONAL =>
              Some (arguments ++ [(p_name param, ATuple (arg_val :: arg_vals))], rest)
          | POSITIONAL_ONLY =>
              bind_positional rest arg_vals kwargs
                (arguments ++ [(p_name param, ASingle arg_val)])
          | POSITIONAL_OR_KEYWORD =>
              if is_Some_dec (kwargs_get kwargs (p_name param)) then None
              else bind_positional rest arg_vals kwargs
                     (arguments ++ [(p_name param, ASingle arg_val)])
          end
      end
  end.

(** The second loop: keyword arguments for the remaining parameters. *)
Fixpoint bind_keywords (parameters : list Param) (kwargs : Kwargs)
    (kwargs_param : option Param) (arguments : BoundArguments)
    : option BoundArguments :=
  match parameters with
  | [] =>
      match kwargs, kwargs_param with
      | [], _ => Some arguments
      | _ :: _, Some param => Some (arguments ++ [(p_name param, ADict kwargs)])
      | _ :: _, None => None
      end
  | param :: rest =>
      match p_kind param with
      | VAR_KEYWORD => bind_keywords rest kwargs (Some param) arguments
      | VAR_POSITIONAL => bind_keywords rest kwargs kwargs_param arguments
      | POSITIONAL_ONLY =>
          match kwargs_get kwargs (p_name param) with
          | None =>
              if p_default param is Some _
              then bind_keywords rest kwargs kwargs_param arguments
              else None
          | Some _ => None
          end
      | POSITIONAL_OR_KEYWORD | KEYWORD_ONLY =>
          match kwargs_get kwargs (p_name param) with
          | None =>
              if p_default param is Some _
              then bind_keywords rest kwargs kwargs_param arguments
              else None
          | Some arg_val =>
              bind_keywords rest (kwargs_pop kwargs (p_name param)) kwargs_param
                (arguments ++ [(p_name param, ASingle arg_val)])
          end
      end
  end.

Definition arguments_get (arguments : BoundArguments) (name : string) : option Arg :=
  list_find (fun na => na.1 = name) arguments ≫= fun ina => Some ina.2.2.

Fixpoint apply_defaults (parameters : list Param) (arguments : BoundArguments)
    : BoundArguments :=
  match parameters with
  | [] => []
  | param :: rest =>
      match arguments_get arguments (p_name param) with
      | Some val => (p_name param, val) :: apply_defaults rest arguments
      | None =>
          match p_default param, p_kind param with
          | Some val, _ => (p_name param, ASingle val) :: apply_defaults rest arguments
          | None, VAR_POSITIONAL => (p_name param, ATuple []) :: apply_defaults rest arguments
          | None, VAR_KEYWORD => (p_name param, ADict []) :: apply_defaults rest arguments
          | None, _ => apply_defaults rest arguments
          end
      end
  end.

(** [sig.bind] on the call's arguments, then [bound_args.apply_defaults()]. *)
Definition bind (sig : Signature) (args : list Value) (kwargs : Kwargs)
    : option BoundArguments :=
  '(arguments, remaining) ← bind_positional sig args kwargs [];
  arguments ← bind_keywords remaining kwargs None arguments;
  Some (apply_defaults sig arguments).

(** ** Callables and calls

    A function object: the attributes the module reads from it, and its body
    as a function of the call's arguments.  Calling it binds the arguments to
    its parameters first, which is where Python raises [TypeError] on an
    argument mismatch, and then runs the body. *)

Record Callable := mkCallable {
  f_name : string;                       (* __name__ *)
  f_qualname : string;                   (* __qualname__ *)
  f_module : string;                     (* __module__ *)
  f_signature : Signature;               (* what inspect.signature returns *)
  f_doc : option string;                 (* __doc__, None when there is none *)
  f_body : list Value → Kwargs → Outcome
}.

Definition signature (func : Callable) : Signature := f_signature func.

Definition call (func : Callable) (args : list Value) (kwargs : Kwargs) : Outcome :=
  match bind (f_signature func) args kwargs with
  | None => Raised TypeError
  | Some _ => f_body func args kwargs
  end.

(** What a dispatch did: the calls it made, in order, and how it ended. *)
Record Run := mkRun {
  calls : list (Callable * list Value * Kwargs);
  result : Outcome
}.

Inductive Warning :=
| ConflictingOverloadWarning (func_name : string) (sig existing_sig : Signature).

(** The scan shared by both [best_match] methods: [try_bind] is the [try]
    block around [sig.bind], [best] the pair [(best_score, best_func)].  The
    score is computed outside the [try] block: an exception it raises ends
    the scan. *)
Fixpoint best_match_loop (try_bind : Signature → option BoundArguments)
    (candidates : list (Callable * Signature)) (best : Z * option Callable)
    : Result (Z * option Callable) :=
  match candidates with
  | [] => Ok best
  | (func, sig) :: rest =>
      match try_bind sig with
      | None => best_match_loop try_bind rest best      (* except TypeError: continue *)
      | Some bound_args =>
          match _signature_matches sig bound_args with
          | Err e => Err e
          | Ok score =>
              if score >? best.1
              then best_match_loop try_bind rest (score, Some func)
              else best_match_loop try_bind rest best
          end
      end
  end.

Module FunctionOverloadDispatcher.

Record t := mk {
  name : string;
  overload_list : list Callable;
  signatures : list Signature
}.

Definition best_match (self : t) (args : list Value) (kwargs : Kwargs)
    : Result Callable :=
  match best_match_loop (fun sig => bind sig args kwargs)
          (zip (overload_list self) (signatures self)) (-1, None) with
  | Err e => Err e
  | Ok (best_score, None) => Err NoMatchingOverloadException
  | Ok (best_score, Some func) => Ok func
  end.

Definition __call__ (self : t) (args : list Value) (kwargs : Kwargs) : Run :=
  match best_match self args kwargs with
  | Err e => mkRun [] (Raised e)
  | Ok func => mkRun [(func, args, kwargs)] (call func args kwargs)
  end.

End FunctionOverloadDispatcher.

Module BoundOverloadDispatcher.

Record t := mk {
  instance : Value;
  owner_cls : string;
  name : string;
  overload_list : list Callable;
  signatures : list Signature
}.

Definition best_match (self : t) (args : list Value) (kwargs : Kwargs)
    : Result Callable :=
  match best_match_loop (fun sig => bind sig (instance self :: args) kwargs)
          (zip (overload_list self) (signatures self)) (-1, None) with
  | Err e => Err e
  | Ok (best_score, None) => Err NoMatchingOverloadException
  | Ok (best_score, Some func) => Ok func
  end.

(** [getattr_super owner_cls instance name] is
    [getattr(super(owner_cls, instance), name, None)]: the attribute the
    next class in line gives the instance, already bound to it. *)
Definition __call__ (getattr_super : string → Value → string → option Callable)
    (self : t) (args : list Value) (kwargs : Kwargs) : Run :=
  match best_match self args kwargs with
  | Ok func =>
      mkRun [(func, instance self :: args, kwargs)]
            (call func (instance self :: args) kwargs)
  | Err NoMatchingOverloadException =>
      (* no matching overload in owner class, check next in line *)
      match getattr_super (owner_cls self) (instance self) (name self) with
      | Some super_call =>
          match call super_call args kwargs with
          | Raised TypeError =>
              mkRun [(super_call, args, kwargs)] (Raised NoMatchingOverloadException)
          | outcome => mkRun [(super_call, args, kwargs)] outcome
          end
      | None => mkRun [] (Raised NoMatchingOverloadException)
      end
  | Err e => mkRun [] (Raised e)
  end.

End BoundOverloadDispatcher.

Module OverloadItem.

Record t := mk {
  name : string;
  overloads : list Callable;
  signatures : list Signature
}.

Definition __init__ (func : Callable) : t :=
  mk (f_name func) [func] [signature func].

(** The item after the call and the warnings it issued. *)
Definition append (self : t) (func : Callable) : t * list Warning :=
  let sig := signature func in
  let warnings :=
    (fun existing_sig => ConflictingOverloadWarning (f_name func) sig existing_sig)
      <$> filter (fun existing_sig => _overlap_signature sig existing_sig = true)
            (signatures self) in
  (mk (name self) (overloads self ++ [func]) (signatures self ++ [sig]), warnings).

Definition __get__ (self : t) (instance : Value) (owner_cls : string)
    : BoundOverloadDispatcher.t :=
  BoundOverloadDispatcher.mk instance owner_cls (name self) (overloads self)
    (signatures self).

Definition __call__ (self : t) (args : list Value) (kwargs : Kwargs) : Run :=
  FunctionOverloadDispatcher.__call__
    (FunctionOverloadDispatcher.mk (name self) (overloads self) (signatures self))
    args kwargs.

Definition __len__ (self : t) : nat := length (overloads self).

Definition help (self : t) (args : list Value) (kwargs : Kwargs) : Result string :=
  match FunctionOverloadDispatcher.best_match
          (FunctionOverloadDispatcher.mk (name self) (overloads self) (signatures self))
          args kwargs with
  | Err e => Err e
  | Ok func => Ok (match f_doc func with
                   | Some doc => if decide (doc = EmptyString) then EmptyString else doc
                   | None => EmptyString
                   end)
  end.

End OverloadItem.

(** ** The registration surface *)

(** A callable object that need not be a function, as far as the module looks
    at it.  [callable(value)] holds of functions, and also of classes,
    builtins, [functools.partial] objects and instances of classes with
    [__call__]; of these [OverloadItem.__init__] and [OverloadItem.append]
    read the name, the signature and the other attributes of a function,
    and each of them can be missing: [int] has a name but
    [inspect.signature(int)] raises [ValueError]; a [functools.partial] object
    has a signature but no [__name__]; the builtin [len] has a name and a
    signature but no [__annotations__]. *)
Record CallableObject := mkCallableObject {
  o_name : option string;          (* __name__; None: AttributeError *)
  o_signature : Result Signature;  (* inspect.signature(obj), or what it raises *)
  o_attributes : option (string * string);
    (* __qualname__ and __module__ when the object has them and
       __annotations__ too; None: AttributeError *)
  o_doc : option string;           (* __doc__ *)
  o_body : list Value → Kwargs → Outcome
}.

Definition AttributeError : Exn := OtherException "AttributeError".
Definition ValueError : Exn := OtherException "ValueError".

(** The object as a registry stores it, once its signature is known.  The
    attributes it lacks are left empty: they are read on no path that stores
    the object. *)
Definition stored_function (obj : CallableObject) (sig : Signature) : Callable :=
  mkCallable (default EmptyString (o_name obj))
    (default EmptyString (fst <$> o_attributes obj))
    (default EmptyString (snd <$> o_attributes obj))
    sig (o_doc obj) (o_body obj).

(** A function seen as a callable object: nothing is missing. *)
Definition object_of_function (func : Callable) : CallableObject :=
  mkCallableObject (Some (f_name func)) (Ok (f_signature func))
    (Some (f_qualname func, f_module func)) (f_doc func) (f_body func).

(** [OverloadItem(obj)] for any callable object: [func.__name__] is read
    first, then [signature(func)], then the attributes copied to the item. *)
Definition OverloadItem_of_object (obj : CallableObject) : Result OverloadItem.t :=
  match o_name obj with
  | None => Err AttributeError
  | Some _ =>
      match o_signature obj with
      | Err e => Err e
      | Ok sig =>
          match o_attributes obj with
          | None => Err AttributeError
          | Some _ => Ok (OverloadItem.__init__ (stored_function obj sig))
          end
      end
  end.

(** [item.append(obj)] for any callable object: [signature(func)] comes first;
    the name is read only to word a warning, so an object without a name is
    appended unless its signature overlaps a stored one. *)
Definition append_object (item : OverloadItem.t) (obj : CallableObject)
    : Result (OverloadItem.t * list Warning) :=
  match o_signature obj with
  | Err e => Err e
  | Ok sig =>
      let '(item', warnings) := OverloadItem.append item (stored_function obj sig) in
      match o_name obj, warnings with
      | None, _ :: _ => Err AttributeError
      | _, _ => Ok (item', warnings)
      end
  end.

(** What a class body assigns to a name: [None], some other non-callable
    object, a function (a [def] statement), or any other callable object. *)
Inductive Assigned :=
| AssignNone
| AssignData (v : Value)
| AssignFunction (func : Callable)
| AssignCallable (obj : CallableObject).

Definition callable (value : Assigned) : bool :=
  match value with
  | AssignFunction _ | AssignCallable _ => true
  | _ => false
  end.

(** What the dictionary holds under a name. *)
Inductive Slot :=
| SlotNone
| SlotData (v : Value)
| SlotItem (item : OverloadItem.t).

Module OverloadDict.

(** [self.get(key, None)] *)
Definition get (self : gmap string Slot) (key : string) : Slot :=
  default SlotNone (self !! key).

(** The dictionary after the assignment and the warnings issued, or the
    exception raised. *)
Definition __setitem__ (self : gmap string Slot) (key : string) (value : Assigned)
    : Result (gmap string Slot * list Warning) :=
  match value with
  | AssignFunction func =>
      match get self key with
      | SlotNone => Ok (<[key := SlotItem (OverloadItem.__init__ func)]> self, [])
      | SlotItem current_value =>
          let '(item, warnings) := OverloadItem.append current_value func in
          Ok (<[key := SlotItem item]> self, warnings)
      | SlotData _ => Err TypeError
      end
  | AssignCallable obj =>
      match get self key with
      | SlotNone =>
          match OverloadItem_of_object obj with
          | Err e => Err e
          | Ok item => Ok (<[key := SlotItem item]> self, [])
          end
      | SlotItem current_value =>
          match append_object current_value obj with
          | Err e => Err e
          | Ok (item, warnings) => Ok (<[key := SlotItem item]> self, warnings)
          end
      | SlotData _ => Err TypeError
      end
  (* not callable(value) *)
  | AssignNone => Ok (<[key := SlotNone]> self, [])
  | AssignData v => Ok (<[key := SlotData v]> self, [])
  end.

End OverloadDict.

(** [overload]: the decorator, on the module-level table [_overload_functions].
    Returns the table, the item now registered under the name and the
    warnings issued. *)
Definition overload (_overload_functions : gmap string OverloadItem.t) (func : Callable)
    : gmap string OverloadItem.t * OverloadItem.t * list Warning :=
  let name := (f_module func +:+ "." +:+ f_qualname func)%string in
  match _overload_functions !! name with
  | None =>
      let item := OverloadItem.__init__ func in
      (<[name := item]> _overload_functions, item, [])
  | Some current =>
      let '(item, warnings) := OverloadItem.append current func in
      (<[name := item]> _overload_functions, item, warnings)
  end.

(** Registering a first function and then more of the same name. *)
Definition register_all (func : Callable) (more : list Callable)
    : OverloadItem.t * list Warning :=
  foldl (fun '(item, warnings) f =>
           let '(item', new_warnings) := OverloadItem.append item f in
           (item', warnings ++ new_warnings))
        (OverloadItem.__init__ func, []) more.

(** ** Classes, [super] and method calls

    A class table gives each class its own namespace; the method resolution
    order of an instance is [v_classes].  Attributes stored on the instance
    itself are not modelled. *)

(** What a class holds under a name. *)
Inductive ClassAttr :=
| AttrFunction (func : Callable)              (* a plain function *)
| AttrOverloadItem (item : OverloadItem.t)    (* a registry, which has [__get__] *)
| AttrData (v : Value)                        (* a non-callable object other than None *)
| AttrNone.

Definition RecursionError : Exn := OtherException "RecursionError".

(** [type(instance)] *)
Definition type_of (instance : Value) : string :=
  default "object" (head (v_classes instance)).

(** The attribute of the first class of [mro] that has [name]. *)
Fixpoint find_attr (classes : gmap string (gmap string ClassAttr))
    (mro : list string) (name : string) : option ClassAttr :=
  match mro with
  | [] => None
  | cls :: rest =>
      match classes !! cls ≫= (fun namespace => namespace !! name) with
      | Some attr => Some attr
      | None => find_attr classes rest name
      end
  end.

(** The classes [super(owner_cls, instance)] searches: those after
    [owner_cls] in the method resolution order. *)
Fixpoint mro_after (owner_cls : string) (mro : list string) : list string :=
  match mro with
  | [] => []
  | cls :: rest => if decide (cls = owner_cls) then rest else mro_after owner_cls rest
  end.

(** The signature of a function that takes [*args] and [**kwargs]: it binds
    every call. *)
Definition any_arguments : Signature :=
  [mkParam "args" VAR_POSITIONAL HAny None; mkParam "kwargs" VAR_KEYWORD HAny None].

(** A function looked up on an instance: calling it calls the function with
    the instance first, and binds at that point. *)
Definition bound_method (func : Callable) (instance : Value) : Callable :=
  mkCallable (f_name func) (f_qualname func) (f_module func) any_arguments (f_doc func)
    (fun args kwargs => call func (instance :: args) kwargs).

(** An object that is not callable: calling it raises [TypeError]. *)
Definition not_callable : Callable :=
  mkCallable "" "" "" any_arguments None (fun _ _ => Raised TypeError).

(** [getattr(super(owner_cls, instance), name, None)], for an [owner_cls]
    that is a class of the instance.  A registry found there is bound by its
    [__get__], to which [super] passes the instance and [type(instance)];
    calling the dispatcher so obtained is a nested dispatch.  [depth] is the
    number of nested dispatches the interpreter's recursion limit still
    allows: beyond it the call raises [RecursionError]. *)
Fixpoint getattr_super (depth : nat) (classes : gmap string (gmap string ClassAttr))
    (owner_cls : string) (instance : Value) (name : string) : option Callable :=
  match find_attr classes (mro_after owner_cls (v_classes instance)) name with
  | None | Some AttrNone => None
  | Some (AttrFunction func) => Some (bound_method func instance)
  | Some (AttrData _) => Some not_callable
  | Some (AttrOverloadItem item) =>
      Some (mkCallable (OverloadItem.name item) (OverloadItem.name item) ""
              any_arguments None
              (fun args kwargs =>
                 match depth with
                 | O => Raised RecursionError
                 | S depth' =>
                     result (BoundOverloadDispatcher.__call__
                               (getattr_super depth' classes)
                               (OverloadItem.__get__ item instance (type_of instance))
                               args kwargs)
                 end))
  end.

(** [instance.name(...)]: the attribute is looked up along the
    method resolution order; a registry is bound by [__get__], which Python
    gives the instance and [type(instance)]. *)
Definition method_call (depth : nat) (classes : gmap string (gmap string ClassAttr))
    (instance : Value) (name : string) (args : list Value) (kwargs : Kwargs) : Run :=
  match find_attr classes (v_classes instance) name with
  | Some (AttrOverloadItem item) =>
      BoundOverloadDispatcher.__call__ (getattr_super depth classes)
        (OverloadItem.__get__ item instance (type_of instance)) args kwargs
  | Some (AttrFunction func) =>
      mkRun [(func, instance :: args, kwargs)] (call func (instance :: args) kwargs)
  | Some (AttrData _) | Some AttrNone => mkRun [] (Raised TypeError)
  | None => mkRun [] (Raised (OtherException "AttributeError"))
  end.

(** ** Notions the properties are stated with *)

(** What scoring a candidate gives for a call: [None] when binding fails,
    else the score or the exception raised while scoring. *)
Definition candidate_score (try_bind : Signature → option BoundArguments)
    (candidate : Callable * Signature) : option (Result Z) :=
  _signature_matches candidate.2 <$> try_bind candidate.2.

(** Scoring raises on no candidate. *)
Definition no_candidate_raises (try_bind : Signature → option BoundArguments)
    (candidates : list (Callable * Signature)) : Prop :=
  ∀ candidate e,
    candidate ∈ candidates → candidate_score try_bind candidate ≠ Some (Err e).

(** Some candidate binds with a non-negative score. *)
Definition some_candidate_matches (try_bind : Signature → option BoundArguments)
    (candidates : list (Callable * Signature)) : Prop :=
  ∃ candidate score,
    candidate ∈ candidates
    ∧ candidate_score try_bind candidate = Some (Ok score) ∧ 0 ≤ score.

(** No candidate binds, or every one that binds scores REJECT. *)
Definition no_candidate_matches (try_bind : Signature → option BoundArguments)
    (candidates : list (Callable * Signature)) : Prop :=
  ∀ candidate outcome,
    candidate ∈ candidates → candidate_score try_bind candidate = Some outcome →
    ∃ score, outcome = Ok score ∧ score < 0.

(** Candidate number [i] is [func], it binds with a non-negative score, no
    candidate scores higher and every earlier one scores strictly lower. *)
Definition highest_score_earliest (try_bind : Signature → option BoundArguments)
    (candidates : list (Callable * Signature)) (i : nat) (func : Callable) : Prop :=
  ∃ sig score,
    candidates !! i = Some (func, sig)
    ∧ candidate_score try_bind (func, sig) = Some (Ok score)
    ∧ 0 ≤ score
    ∧ ∀ j other score',
        candidates !! j = Some other →
        candidate_score try_bind other = Some (Ok score') →
        score' ≤ score ∧ ((j < i)%nat → score' < score).

(** Either dispatcher, the bound one together with the class hierarchy it
    looks its fallback up in. *)
Inductive Dispatcher :=
| Free (d : FunctionOverloadDispatcher.t)
| Bound (getattr_super : string → Value → string → option Callable)
        (d : BoundOverloadDispatcher.t).

Definition candidates_of (disp : Dispatcher) : list (Callable * Signature) :=
  match disp with
  | Free d =>
      zip (FunctionOverloadDispatcher.overload_list d) (FunctionOverloadDispatcher.signatures d)
  | Bound _ d =>
      zip (BoundOverloadDispatcher.overload_list d) (BoundOverloadDispatcher.signatures d)
  end.

(** The positional arguments a candidate is bound to and called with. *)
Definition call_args (disp : Dispatcher) (args : list Value) : list Value :=
  match disp with
  | Free _ => args
  | Bound _ d => BoundOverloadDispatcher.instance d :: args
  end.

Definition try_bind_of (disp : Dispatcher) (args : list Value) (kwargs : Kwargs)
    : Signature → option BoundArguments :=
  fun sig => bind sig (call_args disp args) kwargs.

Definition best_match_of (disp : Dispatcher) (args : list Value) (kwargs : Kwargs)
    : Result Callable :=
  match disp with
  | Free d => FunctionOverloadDispatcher.best_match d args kwargs
  | Bound _ d => BoundOverloadDispatcher.best_match d args kwargs
  end.

Definition dispatch (disp : Dispatcher) (args : list Value) (kwargs : Kwargs) : Run :=
  match disp with
  | Free d => FunctionOverloadDispatcher.__call__ d args kwargs
  | Bound getattr_super d => BoundOverloadDispatcher.__call__ getattr_super d args kwargs
  end.

(** The ancestor implementation a dispatcher falls back on, if any. *)
Definition ancestor_of (disp : Dispatcher) : option Callable :=
  match disp with
  | Free _ => None
  | Bound getattr_super d =>
      getattr_super (BoundOverloadDispatcher.owner_cls d)
        (BoundOverloadDispatcher.instance d) (BoundOverloadDispatcher.name d)
  end.

(** The registry invariant: the stored signatures are those of the stored
    functions, in the same order. *)
Definition registry_consistent (overloads : list Callable) (signatures : list Signature)
    : Prop :=
  signatures = signature <$> overloads.

Definition dispatcher_consistent (disp : Dispatcher) : Prop :=
  match disp with
  | Free d =>
      registry_consistent (FunctionOverloadDispatcher.overload_list d)
        (FunctionOverloadDispatcher.signatures d)
  | Bound _ d =>
      registry_consistent (BoundOverloadDispatcher.overload_list d)
        (BoundOverloadDispatcher.signatures d)
  end.

(** The shape [inspect] gives the argument bound to a parameter of a kind. *)
Definition shape_ok (kind : ParamKind) (arg : Arg) : Prop :=
  match kind, arg with
  | VAR_POSITIONAL, ATuple _ => True
  | VAR_KEYWORD, ADict _ => True
  | (POSITIONAL_ONLY | POSITIONAL_OR_KEYWORD | KEYWORD_ONLY), ASingle _ => True
  | _, _ => False
  end.

(** Python gives no default to a variadic parameter. *)
Definition Param_wf (param : Param) : Prop :=
  p_kind param = VAR_POSITIONAL ∨ p_kind param = VAR_KEYWORD → p_default param = None.

(** Every bound argument belongs to a parameter of the signature and has the
    shape of its kind. *)
Definition well_shaped (sig : Signature) (arguments : BoundArguments) : Prop :=
  ∀ name arg, (name, arg) ∈ arguments →
    ∃ param, param ∈ sig ∧ p_name param = name ∧ shape_ok (p_kind param) arg.

(** *** The arity ranges as the specification words them

    Minimum: the number of parameters without a default.  Maximum: the number
    of parameters, or none (unbounded) when a parameter is variadic. *)

Definition spec_min_count (sig : Signature) : Z :=
  Z.of_nat (length (filter (fun param => p_default param = None) sig)).

Definition has_variadic (sig : Signature) : bool :=
  existsb (fun param =>
             bool_decide (p_kind param = VAR_POSITIONAL)
             || bool_decide (p_kind param = VAR_KEYWORD)) sig.

Definition spec_max_count (sig : Signature) : option Z :=
  if has_variadic sig then None else Some (len_parameters sig).

Definition below_max (n : Z) (max : option Z) : bool :=
  match max with None => true | Some m => bool_decide (n ≤ m) end.

(** Some parameter count lies in both ranges: the larger minimum is such a
    count whenever there is one. *)
Definition spec_ranges_intersect (sig1 sig2 : Signature) : bool :=
  let low := Z.max (spec_min_count sig1) (spec_min_count sig2) in
  below_max low (spec_max_count sig1) && below_max low (spec_max_count sig2).

(** ** Sample objects *)

Module Samples.

Definition an_int (n : Z) : Value := mkValue ["int"; "object"] n.
Definition a_str (n : Z) : Value := mkValue ["str"; "Iterable"; "object"] n.
Definition a_float (n : Z) : Value := mkValue ["float"; "object"] n.
Definition a_list (n : Z) : Value := mkValue ["list"; "Iterable"; "object"] n.
Definition an_object (n : Z) : Value := mkValue ["object"] n.

Definition plain (name : string) (hint : TypeHint) : Param :=
  mkParam name POSITIONAL_OR_KEYWORD hint None.
Definition with_default (name : string) (hint : TypeHint) (v : Value) : Param :=
  mkParam name POSITIONAL_OR_KEYWORD hint (Some v).
Definition star_args (name : string) (hint : TypeHint) : Param :=
  mkParam name VAR_POSITIONAL hint None.
Definition star_kwargs (name : string) (hint : TypeHint) : Param :=
  mkParam name VAR_KEYWORD hint None.

Definition returns (n : Z) : list Value → Kwargs → Outcome :=
  fun _ _ => Returned (an_int n).
Definition raises (e : Exn) : list Value → Kwargs → Outcome :=
  fun _ _ => Raised e.

Definition def (name : string) (sig : Signature) (doc : option string)
    (body : list Value → Kwargs → Outcome) : Callable :=
  mkCallable name name "samples" sig doc body.

(** def f(x: int) / def f(x: int | str) *)
Definition f_int : Callable :=
  def "f" [plain "x" (HClass "int")] (Some "takes an int") (returns 1).
Definition f_int_or_str : Callable :=
  def "f" [plain "x" (HUnion [HClass "int"; HClass "str"])] None (returns 2).
(** def f(x) *)
Definition f_any : Callable :=
  def "f" [plain "x" HEmpty] None (returns 3).
(** def g, taking [*args: int] *)
Definition g_ints : Callable :=
  def "g" [star_args "args" (HClass "int")] None (returns 4).
(** def g, taking [**kwargs: int] *)
Definition g_kwints : Callable :=
  def "g" [star_kwargs "kwargs" (HClass "int")] None (returns 5).
(** def h(x: int, y: float) *)
Definition h_int_float : Callable :=
  def "h" [plain "x" (HClass "int"); plain "y" (HClass "float")] None (returns 6).

(** The signatures (a, b=1, c=2), (a, b) and [*args] alone. *)
Definition k_a_b1_c2 : Signature :=
  [plain "a" HEmpty; with_default "b" HEmpty (an_int 1); with_default "c" HEmpty (an_int 2)].
Definition k_a_b : Signature := [plain "a" HEmpty; plain "b" HEmpty].
Definition k_star : Signature := [star_args "args" HEmpty].

Definition k_three : Callable := def "k" k_a_b1_c2 None (returns 30).
Definition k_two : Callable := def "k" k_a_b None (returns 31).

(** Methods: def m(self, x: int) and an inherited def m(self, x: str). *)
Definition m_int : Callable :=
  def "m" [plain "self" HEmpty; plain "x" (HClass "int")] None (returns 7).
Definition parent_m_raises_TypeError : Callable :=
  def "m" [plain "x" (HClass "str")] None (raises TypeError).
Definition parent_m_two_args : Callable :=
  def "m" [plain "x" HEmpty; plain "y" HEmpty] None (returns 8).


(** The registry of [f_int] then [f_int_or_str], as a free-function
    dispatcher and as the dispatcher of a method of [Owner]. *)
Definition free_f : FunctionOverloadDispatcher.t :=
  FunctionOverloadDispatcher.mk "f" [f_int; f_int_or_str]
    [signature f_int; signature f_int_or_str].
Definition free_h : FunctionOverloadDispatcher.t :=
  FunctionOverloadDispatcher.mk "h" [h_int_float] [signature h_int_float].
Definition bound_m : BoundOverloadDispatcher.t :=
  BoundOverloadDispatcher.mk (an_object 0) "Owner" "m" [m_int] [signature m_int].

(** Class hierarchies: the parent of [Owner] defines [m] or does not. *)
Definition parent_with (func : Callable) : string → Value → string → option Callable :=
  fun owner_cls _ name =>
    if decide (owner_cls = "Owner" ∧ name = "m") then Some func else None.
Definition no_parent : string → Value → string → option Callable :=
  fun _ _ _ => None.

(** def flatten(x: int) / def flatten(x: Iterable[int]) *)
Definition flatten_int : Callable :=
  def "flatten" [plain "x" (HClass "int")] (Some "Flatten an integer.") (returns 10).
Definition flatten_iterable : Callable :=
  def "flatten" [plain "x" (HGeneric (HClass "Iterable") [HClass "int"])]
    (Some "Flatten an iterable of integers.") (returns 11).

(** A [bool] is an instance of [int] as well. *)
Definition a_bool (n : Z) : Value := mkValue ["bool"; "int"; "object"] n.

(** A class body: the [__module__] line Python adds, then [f], [g] and a
    second [f]. *)
Definition class_body : list (string * Assigned) :=
  [("__module__", AssignData (a_str 0));
   ("f", AssignFunction f_int);
   ("g", AssignFunction g_ints);
   ("f", AssignFunction f_int_or_str)].

(** The class [int], as the module sees it: it has a name, and
    [inspect.signature(int)] raises [ValueError]. *)
Definition the_class_int : CallableObject :=
  mkCallableObject (Some "int") (Err ValueError) None None
    (fun _ _ => Returned (an_int 0)).

(** [functools.partial(f)] of a function [f(x: str)]: a signature, no
    [__name__]. *)
Definition a_partial : CallableObject :=
  mkCallableObject None (Ok [plain "x" (HClass "str")]) None None
    (fun _ _ => Returned (an_int 0)).

(** The builtin [len]: a name and the signature [(obj, /)], no
    [__annotations__]. *)
Definition builtin_len : CallableObject :=
  mkCallableObject (Some "len")
    (Ok [mkParam "obj" POSITIONAL_ONLY HEmpty None]) None None
    (fun _ _ => Returned (an_int 0)).

(** Two functions that [overload] files under one key, "pkg.util.f": [f] of
    module [pkg.util], and [f] of a class [util] in module [pkg]. *)
Definition pkg_util_f : Callable :=
  mkCallable "f" "f" "pkg.util" [plain "x" (HClass "int")] None (returns 20).
Definition pkg_util_dot_f : Callable :=
  mkCallable "f" "util.f" "pkg" [plain "x" (HClass "str")] None (returns 21).

(** The signatures (x: list[int]) and (x: list[int] | None). *)
Definition x_list_int : Signature :=
  [plain "x" (HGeneric (HClass "list") [HClass "int"])].
Definition x_list_int_or_None : Signature :=
  [plain "x" (HUnion [HGeneric (HClass "list") [HClass "int"]; HClass "NoneType"])].

(** def f(x: typing.Union[int, str]), and the method of the module's
    demonstration, def hello(self, x: int, y: Union[int, str]). *)
Definition typing_Union (members : list TypeHint) : TypeHint :=
  HGeneric (HNotAClass "typing.Union") members.
Definition f_typing_Union : Callable :=
  def "f" [plain "x" (typing_Union [HClass "int"; HClass "str"])] None (returns 2).
Definition hello_typing_Union : Callable :=
  def "hello" [plain "self" HEmpty; plain "x" (HClass "int");
               plain "y" (typing_Union [HClass "int"; HClass "str"])] None (returns 0).

(** class B(Overload) with the overloaded method [m(self, x: int)], and
    class C(B) with an empty body; an instance of each. *)
Definition classes_B_C : gmap string (gmap string ClassAttr) :=
  {[ "B" := {[ "m" := AttrOverloadItem (OverloadItem.__init__ m_int) ]};
     "C" := ∅ ]}.
Definition instance_of_B : Value := mkValue ["B"; "object"] 0.
Definition instance_of_C : Value := mkValue ["C"; "B"; "object"] 1.

(** The class [SaysHey(Overload)] of the module's demonstration, with its
    one method [hello], and an instance of it. *)
Definition classes_SaysHey : gmap string (gmap string ClassAttr) :=
  {[ "SaysHey" :=
       {[ "hello" := AttrOverloadItem (OverloadItem.__init__ hello_typing_Union) ]} ]}.
Definition instance_of_SaysHey : Value := mkValue ["SaysHey"; "Overload"; "object"] 0.

(** A method whose body raises [ValueError], and its dispatcher. *)
Definition m_int_raises : Callable :=
  def "m" [plain "self" HEmpty; plain "x" (HClass "int")] None
    (raises (OtherException "ValueError")).
Definition bound_m_raising : BoundOverloadDispatcher.t :=
  BoundOverloadDispatcher.mk (an_object 0) "Owner" "m" [m_int_raises]
    [signature m_int_raises].

(** A method whose body raises [TypeError], and its dispatcher. *)
Definition m_int_TypeError : Callable :=
  def "m" [plain "self" HEmpty; plain "x" (HClass "int")] None (raises TypeError).
Definition bound_m_TypeError : BoundOverloadDispatcher.t :=
  BoundOverloadDispatcher.mk (an_object 0) "Owner" "m" [m_int_TypeError]
    [signature m_int_TypeError].

(** A class body in which [f] already holds a registry. *)
Definition class_body_with_f : gmap string Slot :=
  {["f" := SlotItem (OverloadItem.__init__ f_int)]}.

End Samples.

(** ** Further notions: per-parameter scores, class bodies, decoration *)

(** The score [_signature_matches] computes for one item of
    [bound_args.arguments.items()]. *)
Definition partial_score (sig : Signature) (item : string * Arg)
    : option (Result Z) :=
  (fun param => _score_any_type_hint item.2 param) <$> get_parameter sig item.1.

(** The values of a variadic parameter that score MATCH, and REJECT. *)
Definition count_scoring (score : Z) (hint : TypeHint) (values : list Value) : Z :=
  Z.of_nat (length (filter (fun a => _score_type_hint a hint = Ok score) values)).

(** The tuple the Conflict Detector searches for a shared member: the
    [__args__] of a union, or the annotation itself. *)
Definition hint_members (annotation : TypeHint) : list TypeHint :=
  if isinstance_UnionType annotation then union_args annotation else [annotation].

(** The key [overload] files a function under in [_overload_functions]. *)
Definition overload_key (func : Callable) : string :=
  (f_module func +:+ "." +:+ f_qualname func)%string.

(** Decorating functions one after the other. *)
Definition overload_all (table : gmap string OverloadItem.t) (funcs : list Callable)
    : gmap string OverloadItem.t * list Warning :=
  foldl (fun '(table, warnings) func =>
           let '(table', _, new_warnings) := overload table func in
           (table', warnings ++ new_warnings))
        (table, []) funcs.

Module OverloadMeta.

(** [__prepare__]: the namespace a class body starts from, an empty
    [OverloadDict]. *)
Definition __prepare__ : gmap string Slot := ∅.

End OverloadMeta.

(** A class body as Python runs it: each statement assigns a value to a name
    in the namespace, through [OverloadDict.__setitem__]; the first exception
    ends it. *)
Fixpoint exec_class_body (body : list (string * Assigned))
    (namespace : gmap string Slot) (warnings : list Warning)
    : Result (gmap string Slot * list Warning) :=
  match body with
  | [] => Ok (namespace, warnings)
  | (key, value) :: rest =>
      match OverloadDict.__setitem__ namespace key value with
      | Err e => Err e
      | Ok (namespace', new_warnings) =>
          exec_class_body rest namespace' (warnings ++ new_warnings)
      end
  end.

(** The functions a class body assigns to a name, in order. *)
Definition functions_of (key : string) (body : list (string * Assigned)) : list Callable :=
  omap (fun statement =>
          match statement.2 with
          | AssignFunction func => if decide (statement.1 = key) then Some func else None
          | _ => None
          end) body.

(** Appending functions to a registry one after the other. *)
Definition append_all (item : OverloadItem.t) (funcs : list Callable) : OverloadItem.t :=
  foldl (fun item func => (OverloadItem.append item func).1) item funcs.

(** The registry of a non-empty list of functions. *)
Definition registry_of (funcs : list Callable) : option OverloadItem.t :=
  match funcs with
  | [] => None
  | func :: more => Some (register_all func more).1
  end.

(** * Properties *)

(** ** The scan over the candidates *)

Section scan.
Context (try_bind : Signature → option BoundArguments).

Lemma candidate_score_head func sig outcome :
  candidate_score try_bind (func, sig) = Some outcome →
  ∃ bound_args, try_bind sig = Some bound_args
                ∧ outcome = _signature_matches sig bound_args.
Proof.
  unfold candidate_score. simpl. intros Hs.
  destruct (try_bind sig) as [b|]; simplify_eq/=. eauto.
Qed.

(** The scan ends with the exception of the first candidate whose scoring
    raises; when none raises, either nothing beat the starting pair, or the
    scan stopped on the earliest candidate that carries the highest score. *)
Lemma best_match_loop_spec candidates :
  ∀ best_score best_func,
    match best_match_loop try_bind candidates (best_score, best_func) with
    | Err e =>
        ∃ i candidate,
          candidates !! i = Some candidate
          ∧ candidate_score try_bind candidate = Some (Err e)
          ∧ ∀ j other e', (j < i)%nat → candidates !! j = Some other →
                          candidate_score try_bind other ≠ Some (Err e')
    | Ok best =>
        no_candidate_raises try_bind candidates
        ∧ ((best = (best_score, best_func)
            ∧ ∀ j other score',
                candidates !! j = Some other →
                candidate_score try_bind other = Some (Ok score') →
                score' ≤ best_score)
           ∨ (∃ i func sig score,
                candidates !! i = Some (func, sig)
                ∧ candidate_score try_bind (func, sig) = Some (Ok score)
                ∧ best = (score, Some func)
                ∧ best_score < score
                ∧ ∀ j other score',
                    candidates !! j = Some other →
                    candidate_score try_bind other = Some (Ok score') →
                    score' ≤ score ∧ ((j < i)%nat → score' < score)))
    end.
Proof.
  induction candidates as [|[func sig] rest IH]; intros best_score best_func.
  { simpl. split.
    - intros candidate e Hin. by apply not_elem_of_nil in Hin.
    - left. split; [done|]. intros j other score' Hj. by rewrite lookup_nil in Hj. }
  assert (Hraises : ∀ outcome,
            candidate_score try_bind (func, sig) = outcome →
            (∀ e, outcome ≠ Some (Err e)) →
            no_candidate_raises try_bind rest →
            no_candidate_raises try_bind ((func, sig) :: rest)).
  { intros outcome Hhead Hok Hrest candidate e Hin.
    apply elem_of_cons in Hin as [->|Hin]; [|by apply Hrest].
    rewrite Hhead. apply Hok. }
  assert (Hfirst : ∀ i candidate e outcome,
            candidate_score try_bind (func, sig) = outcome →
            (∀ e, outcome ≠ Some (Err e)) →
            rest !! i = Some candidate
            ∧ candidate_score try_bind candidate = Some (Err e)
            ∧ (∀ j other e', (j < i)%nat → rest !! j = Some other →
                             candidate_score try_bind other ≠ Some (Err e')) →
            ∃ i candidate,
              ((func, sig) :: rest) !! i = Some candidate
              ∧ candidate_score try_bind candidate = Some (Err e)
              ∧ ∀ j other e', (j < i)%nat → ((func, sig) :: rest) !! j = Some other →
                              candidate_score try_bind other ≠ Some (Err e')).
  { intros i candidate e outcome Hhead Hok (Hi & He & Hbefore).
    exists (S i), candidate. split_and!; [done|done|].
    intros [|j] other e' Hlt Hj; simpl in Hj.
    - injection Hj as <-. rewrite Hhead. apply Hok.
    - eapply Hbefore; [|done]. lia. }
  simpl.
  destruct (try_bind sig) as [bound_args|] eqn:Hbind.
  - assert (Hhead : candidate_score try_bind (func, sig)
                    = Some (_signature_matches sig bound_args)).
    { unfold candidate_score. simpl. by rewrite Hbind. }
    destruct (_signature_matches sig bound_args) as [score|e] eqn:Hscore.
    + assert (Hok : ∀ e, Some (Ok score) ≠ Some (@Err Z e)) by done.
      destruct (Z.gtb_spec score best_score) as [Hgt|Hle].
      * specialize (IH score (Some func)).
        destruct (best_match_loop try_bind rest (score, Some func)) as [best|e].
        -- destruct IH as [Hnone Hbest]. split; [by eapply Hraises|].
           right. destruct Hbest as [[-> Hall]|(i & f & sg & s & Hi & Hs & -> & Hlt & Hall)].
           ++ exists 0%nat, func, sig, score. split_and!; [done|done|done|lia|].
              intros [|j] other score' Hj Hs; simpl in Hj.
              ** injection Hj as <-. rewrite Hhead in Hs. simplify_eq. lia.
              ** split; [eauto|lia].
           ++ exists (S i), f, sg, s. split_and!; [done|done|done|lia|].
              intros [|j] other score' Hj Hs'; simpl in Hj.
              ** injection Hj as <-. rewrite Hhead in Hs'. simplify_eq. lia.
              ** destruct (Hall j other score' Hj Hs'). split; [done|]. intros. lia.
        -- destruct IH as (i & candidate & Hi). by eapply Hfirst.
      * specialize (IH best_score best_func).
        destruct (best_match_loop try_bind rest (best_score, best_func)) as [best|e].
        -- destruct IH as [Hnone Hbest]. split; [by eapply Hraises|].
           destruct Hbest as [[-> Hall]|(i & f & sg & s & Hi & Hs & -> & Hlt & Hall)].
           ++ left. split; [done|]. intros [|j] other score' Hj Hs; simpl in Hj.
              ** injection Hj as <-. rewrite Hhead in Hs. simplify_eq. lia.
              ** eauto.
           ++ right. exists (S i), f, sg, s. split_and!; [done|done|done|lia|].
              intros [|j] other score' Hj Hs'; simpl in Hj.
              ** injection Hj as <-. rewrite Hhead in Hs'. simplify_eq. lia.
              ** destruct (Hall j other score' Hj Hs'). split; [done|]. intros. lia.
        -- destruct IH as (i & candidate & Hi). by eapply Hfirst.
    + exists 0%nat, (func, sig). split_and!; [done|done|]. intros j other e' Hlt. lia.
  - assert (Hhead : candidate_score try_bind (func, sig) = None).
    { unfold candidate_score. simpl. by rewrite Hbind. }
    assert (Hok : ∀ e, None ≠ Some (@Err Z e)) by done.
    specialize (IH best_score best_func).
    destruct (best_match_loop try_bind rest (best_score, best_func)) as [best|e].
    + destruct IH as [Hnone Hbest]. split; [by eapply Hraises|].
      destruct Hbest as [[-> Hall]|(i & f & sg & s & Hi & Hs & -> & Hlt & Hall)].
      * left. split; [done|]. intros [|j] other score' Hj Hs; simpl in Hj.
        -- injection Hj as <-. by rewrite Hhead in Hs.
        -- eauto.
      * right. exists (S i), f, sg, s. split_and!; [done|done|done|lia|].
        intros [|j] other score' Hj Hs'; simpl in Hj.
        -- injection Hj as <-. by rewrite Hhead in Hs'.
        -- destruct (Hall j other score' Hj Hs'). split; [done|]. intros. lia.
    + destruct IH as (i & candidate & Hi). by eapply Hfirst.
Qed.

End scan.
(** ** Dispatch *)

Lemma best_match_of_loop disp args kwargs :
  best_match_of disp args kwargs
  = match best_match_loop (try_bind_of disp args kwargs) (candidates_of disp)
            (-1, None) with
    | Err e => Err e
    | Ok (_, None) => Err NoMatchingOverloadException
    | Ok (_, Some func) => Ok func
    end.
Proof. by destruct disp as [d|gs d]. Qed.

(** What [best_match] raises is [NoMatchingOverloadException] or what the
    scoring of a candidate raised. *)
Lemma best_match_of_raises disp args kwargs e :
  best_match_of disp args kwargs = Err e →
  e = NoMatchingOverloadException
  ∨ ∃ candidate,
      candidate ∈ candidates_of disp
      ∧ candidate_score (try_bind_of disp args kwargs) candidate = Some (Err e).
Proof.
  rewrite best_match_of_loop.
  pose proof (best_match_loop_spec (try_bind_of disp args kwargs) (candidates_of disp)
                (-1) None) as Hspec.
  destruct (best_match_loop _ _ _) as [[s [f|]]|e'].
  - done.
  - intros [= <-]. by left.
  - intros [= <-]. right. destruct Hspec as (i & candidate & Hi & He & _).
    exists candidate. split; [by eapply list_elem_of_lookup_2|done].
Qed.

Lemma dispatch_winner disp args kwargs func :
  best_match_of disp args kwargs = Ok func →
  dispatch disp args kwargs
  = mkRun [(func, call_args disp args, kwargs)]
          (call func (call_args disp args) kwargs).
Proof.
  destruct disp as [d|gs d]; simpl; intros Hbest.
  - unfold FunctionOverloadDispatcher.__call__. by rewrite Hbest.
  - unfold BoundOverloadDispatcher.__call__. by rewrite Hbest.
Qed.

Lemma no_match_loop try_bind candidates :
  no_candidate_matches try_bind candidates →
  best_match_loop try_bind candidates (-1, None) = Ok (-1, None).
Proof.
  intros Hno.
  pose proof (best_match_loop_spec try_bind candidates (-1) None) as Hspec.
  destruct (best_match_loop try_bind candidates (-1, None)) as [best|e].
  - destruct Hspec as [_ [[-> _]|(i & f & sg & s & Hi & Hs & _ & Hlt & _)]]; [done|].
    apply list_elem_of_lookup_2 in Hi.
    destruct (Hno _ _ Hi Hs) as (s' & Heq & Hneg). injection Heq as <-. lia.
  - destruct Hspec as (i & candidate & Hi & He & _).
    apply list_elem_of_lookup_2 in Hi. by destruct (Hno _ _ Hi He) as (s' & Heq & _).
Qed.

(** The selection rule of both dispatchers.  Whenever scoring raises on no
    candidate and some candidate binds with a non-negative score, the
    dispatcher selects the earliest-registered candidate among those with the
    highest score, and calls exactly that one with the caller's arguments. *)
Lemma dispatch_selects_highest_score_earliest disp args kwargs :
  no_candidate_raises (try_bind_of disp args kwargs) (candidates_of disp) →
  some_candidate_matches (try_bind_of disp args kwargs) (candidates_of disp) →
  ∃ i func,
    highest_score_earliest (try_bind_of disp args kwargs) (candidates_of disp) i func
    ∧ best_match_of disp args kwargs = Ok func
    ∧ dispatch disp args kwargs
      = mkRun [(func, call_args disp args, kwargs)]
              (call func (call_args disp args) kwargs).
Proof.
  intros Hraises (candidate & score & Hin & Hscore & Hpos).
  apply list_elem_of_lookup_1 in Hin as [k Hk].
  pose proof (best_match_loop_spec (try_bind_of disp args kwargs) (candidates_of disp)
                (-1) None) as Hspec.
  pose proof (best_match_of_loop disp args kwargs) as Hloop.
  destruct (best_match_loop _ _ _) as [best|e].
  - destruct Hspec as [_ [[-> Hall]|(i & f & sg & s & Hi & Hs & -> & Hlt & Hall)]].
    { specialize (Hall _ _ _ Hk Hscore). lia. }
    exists i, f. split_and!; [|done|by apply dispatch_winner].
    exists sg, s. split_and!; [done|done|lia|done].
  - destruct Hspec as (i & c & Hi & He & _).
    apply list_elem_of_lookup_2 in Hi. by destruct (Hraises c e Hi).
Qed.

(** C2. When no candidate binds, or every candidate that binds scores REJECT,
    the free-function dispatcher raises [NoMatchingOverloadException] and
    calls nothing. *)
Theorem function_dispatch_no_match d args kwargs :
  no_candidate_matches (fun sig => bind sig args kwargs)
    (zip (FunctionOverloadDispatcher.overload_list d)
         (FunctionOverloadDispatcher.signatures d)) →
  FunctionOverloadDispatcher.best_match d args kwargs = Err NoMatchingOverloadException
  ∧ FunctionOverloadDispatcher.__call__ d args kwargs
    = mkRun [] (Raised NoMatchingOverloadException).
Proof.
  intros Hno. apply no_match_loop in Hno.
  unfold FunctionOverloadDispatcher.__call__, FunctionOverloadDispatcher.best_match.
  by rewrite Hno.
Qed.

(** [f(x: int)] and [f(x: int | str)] both score 1 on [f(5)]: the first wins. *)
Lemma dispatch_selects_highest_score_earliest_witness :
  no_candidate_raises
    (try_bind_of (Free Samples.free_f) [Samples.an_int 5] [])
    (candidates_of (Free Samples.free_f))
  ∧ some_candidate_matches
    (try_bind_of (Free Samples.free_f) [Samples.an_int 5] [])
    (candidates_of (Free Samples.free_f))
  ∧ ∃ i func,
      highest_score_earliest (try_bind_of (Free Samples.free_f) [Samples.an_int 5] [])
        (candidates_of (Free Samples.free_f)) i func
      ∧ best_match_of (Free Samples.free_f) [Samples.an_int 5] [] = Ok func
      ∧ dispatch (Free Samples.free_f) [Samples.an_int 5] []
        = mkRun [(func, call_args (Free Samples.free_f) [Samples.an_int 5], [])]
                (call func (call_args (Free Samples.free_f) [Samples.an_int 5]) []).
Proof.
  assert (Hsome : some_candidate_matches
            (try_bind_of (Free Samples.free_f) [Samples.an_int 5] [])
            (candidates_of (Free Samples.free_f))).
  { exists (Samples.f_int, signature Samples.f_int), 1.
    split_and!; [apply list_elem_of_here|reflexivity|lia]. }
  assert (Hraises : no_candidate_raises
            (try_bind_of (Free Samples.free_f) [Samples.an_int 5] [])
            (candidates_of (Free Samples.free_f))).
  { intros candidate e Hin.
    apply elem_of_cons in Hin as [->|Hin];
      [|apply list_elem_of_singleton in Hin; subst candidate]; by vm_compute. }
  split_and!; [exact Hraises|exact Hsome|].
  exact (dispatch_selects_highest_score_earliest
           (Free Samples.free_f) [Samples.an_int 5] [] Hraises Hsome).
Defined.

(** C1. The code at a call that the claim covers: after [f(x: int)], the
    function [f(x: typing.Union[int, str])] is registered; in the call [f(1)]
    the first candidate binds and scores 1, but scoring the second calls
    [isinstance] on [typing.Union], which is not a class, and the dispatch
    ends in [TypeError] with no candidate called.  The same happens in the
    bound dispatcher, on the method [hello(self, x: int, y: Union[int, str])]
    of the module's own demonstration. *)
Theorem typing_Union_hint_ends_dispatch_in_TypeError :
  candidate_score (fun sig => bind sig [Samples.an_int 1] [])
    (Samples.f_int, signature Samples.f_int) = Some (Ok 1)
  ∧ candidate_score (fun sig => bind sig [Samples.an_int 1] [])
      (Samples.f_typing_Union, signature Samples.f_typing_Union) = Some (Err TypeError)
  ∧ OverloadItem.__call__
      (register_all Samples.f_int [Samples.f_typing_Union]).1 [Samples.an_int 1] []
    = mkRun [] (Raised TypeError)
  ∧ is_Some (bind (signature Samples.hello_typing_Union)
               [Samples.instance_of_SaysHey; Samples.an_int 1; Samples.an_int 2] [])
  ∧ ∀ depth,
      method_call depth Samples.classes_SaysHey Samples.instance_of_SaysHey "hello"
        [Samples.an_int 1; Samples.an_int 2] []
      = mkRun [] (Raised TypeError).
Proof.
  split_and!; [reflexivity|reflexivity|reflexivity|by eexists|].
  intros depth. by destruct depth.
Qed.

Example f_5_runs_the_int_overload :
  OverloadItem.__call__ (register_all Samples.f_int [Samples.f_int_or_str]).1
    [Samples.an_int 5] []
  = mkRun [(Samples.f_int, [Samples.an_int 5], [])] (Returned (Samples.an_int 1)).
Proof. reflexivity. Qed.

(** [f(x: int)] and [f(x: int | str)] called as [f(1.5)]: both bind, both
    score REJECT. *)
Lemma function_dispatch_no_match_witness :
  no_candidate_matches (fun sig => bind sig [Samples.a_float 15] [])
    (zip (FunctionOverloadDispatcher.overload_list Samples.free_f)
         (FunctionOverloadDispatcher.signatures Samples.free_f))
  ∧ FunctionOverloadDispatcher.__call__ Samples.free_f [Samples.a_float 15] []
    = mkRun [] (Raised NoMatchingOverloadException).
Proof.
  assert (Hno : no_candidate_matches (fun sig => bind sig [Samples.a_float 15] [])
            (zip (FunctionOverloadDispatcher.overload_list Samples.free_f)
                 (FunctionOverloadDispatcher.signatures Samples.free_f))).
  { intros candidate outcome Hin Hscore.
    apply elem_of_cons in Hin as [->|Hin];
      [|apply list_elem_of_singleton in Hin; subst candidate];
      vm_compute in Hscore; injection Hscore as <-; by exists (-1). }
  split; [exact Hno|].
  exact (proj2 (function_dispatch_no_match Samples.free_f _ [] Hno)).
Defined.

(** Scenario: [h(x: int, y: float)] called as [h(1, 2, 3)] binds nowhere. *)
Example h_1_2_3_no_match :
  FunctionOverloadDispatcher.__call__ Samples.free_h
    [Samples.an_int 1; Samples.an_int 2; Samples.an_int 3] []
  = mkRun [] (Raised NoMatchingOverloadException).
Proof. reflexivity. Qed.

(** The test suite's [flatten]: a list goes to the [Iterable[int]] overload,
    a float to none. *)
Example flatten_list :
  OverloadItem.__call__ (register_all Samples.flatten_int [Samples.flatten_iterable]).1
    [Samples.a_list 0] []
  = mkRun [(Samples.flatten_iterable, [Samples.a_list 0], [])]
          (Returned (Samples.an_int 11))
  ∧ OverloadItem.help (register_all Samples.flatten_int [Samples.flatten_iterable]).1
      [Samples.an_int 1] [] = Ok "Flatten an integer."%string
  ∧ OverloadItem.help (register_all Samples.flatten_int [Samples.flatten_iterable]).1
      [Samples.a_float 10] [] = Err NoMatchingOverloadException.
Proof. split_and!; reflexivity. Qed.

(** An unannotated parameter scores 0, a matching annotation 1: registered
    after [f(x)], [f(x: int)] still takes an [int]. *)
Example annotated_beats_unannotated :
  OverloadItem.__call__ (register_all Samples.f_any [Samples.f_int]).1
    [Samples.an_int 5] []
  = mkRun [(Samples.f_int, [Samples.an_int 5], [])] (Returned (Samples.an_int 1)).
Proof. reflexivity. Qed.

(** ** Scoring *)

Lemma signature_matches_loop_range sig items score total :
  0 ≤ score → signature_matches_loop sig items score = Ok total → -1 ≤ total.
Proof.
  revert score. induction items as [|[name arg] rest IH]; intros score Hscore; simpl.
  - intros [= <-]. lia.
  - destruct (get_parameter sig name) as [param|]; [|done].
    destruct (_score_any_type_hint arg param) as [partial_score|e]; [|done].
    destruct (Z.ltb_spec partial_score 0); [intros [= <-]; lia|].
    apply IH. lia.
Qed.

(** A signature score is REJECT or a non-negative total. *)
Lemma signature_matches_range sig bound_args total :
  _signature_matches sig bound_args = Ok total → total = -1 ∨ 0 ≤ total.
Proof.
  unfold _signature_matches. intros Htotal.
  apply signature_matches_loop_range in Htotal; lia.
Qed.

(** C3. The code at a call that the claim excludes: for [g] taking
    [*args: int], the call [g(1, 2, "a")] has an argument that scores REJECT,
    yet the two MATCH scores offset it in the sum, the signature scores 1 and
    the candidate is selected and run.  Likewise [**kwargs: int] with one int
    and one str scores 0, not REJECT. *)
Theorem variadic_reject_offset_by_matches :
  _score_type_hint (Samples.a_str 0) (HClass "int") = Ok (-1)
  ∧ bind (signature Samples.g_ints)
      [Samples.an_int 1; Samples.an_int 2; Samples.a_str 0] []
    = Some [("args", ATuple [Samples.an_int 1; Samples.an_int 2; Samples.a_str 0])]
  ∧ _signature_matches (signature Samples.g_ints)
      [("args", ATuple [Samples.an_int 1; Samples.an_int 2; Samples.a_str 0])] = Ok 1
  ∧ OverloadItem.__call__ (OverloadItem.__init__ Samples.g_ints)
      [Samples.an_int 1; Samples.an_int 2; Samples.a_str 0] []
    = mkRun [(Samples.g_ints, [Samples.an_int 1; Samples.an_int 2; Samples.a_str 0], [])]
            (Returned (Samples.an_int 4))
  ∧ bind (signature Samples.g_kwints) []
      [("a", Samples.an_int 1); ("b", Samples.a_str 0)]
    = Some [("kwargs", ADict [("a", Samples.an_int 1); ("b", Samples.a_str 0)])]
  ∧ _signature_matches (signature Samples.g_kwints)
      [("kwargs", ADict [("a", Samples.an_int 1); ("b", Samples.a_str 0)])] = Ok 0.
Proof. split_and!; reflexivity. Qed.

(** ** The arity step of the Conflict Detector *)

Lemma py_sum_ones {A} (xs : list A) : py_sum ((fun _ => 1) <$> xs) = Z.of_nat (length xs).
Proof.
  induction xs as [|x xs IH]; [done|].
  change (1 + py_sum ((fun _ => 1) <$> xs) = Z.of_nat (S (length xs))).
  rewrite IH. lia.
Qed.

(** The code's [len(parameters) - defaults] is the number of parameters
    without a default. *)
Lemma len_minus_defaults sig :
  len_parameters sig - len_defaults sig = spec_min_count sig.
Proof.
  unfold len_parameters, len_defaults, spec_min_count. rewrite py_sum_ones.
  induction sig as [|param sig IH]; [done|].
  rewrite !filter_cons. simpl.
  destruct (p_default param) as [v|] eqn:Hd.
  - rewrite decide_True by eauto. rewrite decide_False by done. simpl. lia.
  - rewrite decide_False by (intros [? ?]; done). rewrite decide_True by done.
    simpl. lia.
Qed.

Lemma spec_min_count_bounds sig : 0 ≤ spec_min_count sig ≤ len_parameters sig.
Proof.
  unfold spec_min_count, len_parameters.
  pose proof (length_filter (fun param => p_default param = None) sig). lia.
Qed.

Lemma arity_mismatch_ends sig1 sig2 :
  arity_mismatch sig1 sig2 = true ↔
    len_parameters sig1 ≠ len_parameters sig2
    ∧ len_parameters sig1 ≠ spec_min_count sig2
    ∧ spec_min_count sig1 ≠ len_parameters sig2
    ∧ spec_min_count sig1 ≠ spec_min_count sig2.
Proof.
  unfold arity_mismatch. rewrite <- !len_minus_defaults.
  rewrite !andb_true_iff, !bool_decide_eq_true. tauto.
Qed.

(** What the arity step computes: it declares no overlap exactly when
    neither end of the first range (count of parameters without a default,
    count of all parameters) equals an end of the second, every parameter
    counting as one whatever its kind.  Hence two ranges with no common count
    are always declared non-overlapping. *)
Lemma arity_step_compares_range_ends sig1 sig2 :
  (arity_mismatch sig1 sig2 = true ↔
     len_parameters sig1 ≠ len_parameters sig2
     ∧ len_parameters sig1 ≠ spec_min_count sig2
     ∧ spec_min_count sig1 ≠ len_parameters sig2
     ∧ spec_min_count sig1 ≠ spec_min_count sig2)
  ∧ (arity_mismatch sig1 sig2 = true → _overlap_signature sig1 sig2 = false)
  ∧ (arity_mismatch sig1 sig2 = false → _overlap_signature sig1 sig2 = overlap_loop sig1 sig2)
  ∧ ((∀ n, ¬ (spec_min_count sig1 ≤ n ≤ len_parameters sig1
              ∧ spec_min_count sig2 ≤ n ≤ len_parameters sig2)) →
     arity_mismatch sig1 sig2 = true).
Proof.
  split_and!.
  - apply arity_mismatch_ends.
  - unfold _overlap_signature. by intros ->.
  - unfold _overlap_signature. by intros ->.
  - intros Hdisjoint. apply arity_mismatch_ends.
    pose proof (spec_min_count_bounds sig1). pose proof (spec_min_count_bounds sig2).
    split_and!; intros Heq.
    + apply (Hdisjoint (len_parameters sig1)). lia.
    + apply (Hdisjoint (len_parameters sig1)). lia.
    + apply (Hdisjoint (len_parameters sig2)). lia.
    + apply (Hdisjoint (spec_min_count sig1)). lia.
Qed.

(** (a, b=1, c=2) accepts one to three arguments and (a, b) exactly two, so
    the ranges share the count two, and no parameter is annotated; the arity
    step declares no overlap all the same.  A variadic parameter does not
    widen the range either. *)
Lemma arity_step_misses_interior_counts :
  spec_ranges_intersect Samples.k_a_b1_c2 Samples.k_a_b = true
  ∧ arity_mismatch Samples.k_a_b1_c2 Samples.k_a_b = true
  ∧ _overlap_signature Samples.k_a_b1_c2 Samples.k_a_b = false
  ∧ spec_ranges_intersect Samples.k_star Samples.k_a_b = true
  ∧ arity_mismatch Samples.k_star Samples.k_a_b = true.
Proof. split_and!; reflexivity. Qed.


(** C4. The code at a pair the claim covers: k(a, b=1, c=2) takes one to
    three arguments and k(a, b) exactly two, so both ranges contain two, and
    the call k(1, 2) binds to both signatures with the same score; yet none of
    the four comparisons of range ends holds, the arity step declares no
    overlap, and registering the two functions issues no warning. *)
Theorem arity_step_rejects_shared_count :
  spec_min_count Samples.k_a_b1_c2 = 1 ∧ len_parameters Samples.k_a_b1_c2 = 3
  ∧ spec_min_count Samples.k_a_b = 2 ∧ len_parameters Samples.k_a_b = 2
  ∧ spec_ranges_intersect Samples.k_a_b1_c2 Samples.k_a_b = true
  ∧ candidate_score (fun sig => bind sig [Samples.an_int 1; Samples.an_int 2] [])
      (Samples.k_three, Samples.k_a_b1_c2) = Some (Ok 0)
  ∧ candidate_score (fun sig => bind sig [Samples.an_int 1; Samples.an_int 2] [])
      (Samples.k_two, Samples.k_a_b) = Some (Ok 0)
  ∧ arity_mismatch Samples.k_a_b1_c2 Samples.k_a_b = true
  ∧ _overlap_signature Samples.k_a_b1_c2 Samples.k_a_b = false
  ∧ _overlap_signature Samples.k_a_b Samples.k_a_b1_c2 = false
  ∧ (register_all Samples.k_three [Samples.k_two]).2 = []
  ∧ (register_all Samples.k_two [Samples.k_three]).2 = [].
Proof. split_and!; reflexivity. Qed.
(** ** Symmetry of the Conflict Detector *)

Lemma get_parameter_Some sig name param :
  get_parameter sig name = Some param → param ∈ sig ∧ p_name param = name.
Proof.
  unfold get_parameter. intros Hget.
  destruct (list_find _ sig) as [[i p]|] eqn:Hfind; simplify_eq/=.
  apply list_find_Some in Hfind as (Hi & Hname & _).
  split; [by eapply list_elem_of_lookup_2|done].
Qed.

Lemma same_name_same_param (sig : list Param) p q :
  Signature_wf sig → p ∈ sig → q ∈ sig → p_name p = p_name q → p = q.
Proof.
  unfold Signature_wf. intros Hwf Hp Hq Hname.
  apply list_elem_of_lookup_1 in Hp as [i Hi].
  apply list_elem_of_lookup_1 in Hq as [j Hj].
  assert (i = j) as ->; [|congruence].
  eapply NoDup_lookup; [exact Hwf| |].
  - rewrite list_lookup_fmap, Hi. reflexivity.
  - rewrite list_lookup_fmap, Hj. simpl. by rewrite Hname.
Qed.

Lemma get_parameter_wf sig param :
  Signature_wf sig → param ∈ sig → get_parameter sig (p_name param) = Some param.
Proof.
  intros Hwf Hin. unfold get_parameter.
  destruct (list_find_elem_of (fun p => p_name p = p_name param) sig param Hin eq_refl)
    as [[i p] Hfind].
  rewrite Hfind. simpl.
  apply list_find_Some in Hfind as (Hi & Hname & _).
  apply list_elem_of_lookup_2 in Hi.
  f_equal. by eapply same_name_same_param.
Qed.

Lemma arity_mismatch_sym sig1 sig2 :
  arity_mismatch sig1 sig2 = arity_mismatch sig2 sig1.
Proof.
  apply Bool.eq_iff_eq_true. rewrite !arity_mismatch_ends.
  split; intros (? & ? & ? & ?); split_and!; congruence.
Qed.

(** [any(p in params2 for p in params1)] after the sort by length: the two
    tuples share a member, whichever is scanned. *)
Lemma any_in_sorted (params1 params2 : list TypeHint) :
  (let '(params1, params2) :=
     if bool_decide (length params2 < length params1)%nat
     then (params2, params1) else (params1, params2) in
   existsb (fun p => bool_decide (p ∈ params2)) params1) = true
  ↔ ∃ p, p ∈ params1 ∧ p ∈ params2.
Proof.
  assert (Hany : ∀ l1 l2 : list TypeHint,
            existsb (fun p => bool_decide (p ∈ l2)) l1 = true ↔ ∃ p, p ∈ l1 ∧ p ∈ l2).
  { intros l1 l2. rewrite existsb_exists. split.
    - intros (p & Hin & Hdec). exists p. apply bool_decide_eq_true in Hdec.
      by rewrite list_elem_of_In.
    - intros (p & Hin & Hin2). exists p. rewrite <- list_elem_of_In.
      split; [done|by apply bool_decide_eq_true]. }
  destruct (bool_decide _); rewrite Hany; [|done].
  split; intros (p & ? & ?); exists p; done.
Qed.

Lemma annotations_compatible_sym a b :
  annotations_compatible a b = annotations_compatible b a.
Proof.
  apply Bool.eq_iff_eq_true. unfold annotations_compatible.
  destruct (is_empty_or_Any (erase_origin a)), (is_empty_or_Any (erase_origin b));
    cbn [orb]; try done.
  destruct (isinstance_UnionType (erase_origin a)),
    (isinstance_UnionType (erase_origin b)); cbn [orb];
    rewrite ?any_in_sorted, ?bool_decide_eq_true;
    first [ split; intros (p & ? & ?); exists p; done | split; congruence ].
Qed.

Lemma overlap_loop_true items sig2 :
  Signature_wf sig2 →
  overlap_loop items sig2 = true
  ↔ ∀ p q, p ∈ items → q ∈ sig2 → p_name p = p_name q →
           annotations_compatible (p_annotation p) (p_annotation q) = true.
Proof.
  intros Hwf. induction items as [|param rest IH]; simpl.
  - split; [|done]. intros _ p q Hp. by apply not_elem_of_nil in Hp.
  - destruct (get_parameter sig2 (p_name param)) as [other|] eqn:Hget.
    + apply get_parameter_Some in Hget as [Hother Hname].
      destruct (annotations_compatible _ _) eqn:Hcompat.
      * rewrite IH. split.
        -- intros Hall p q Hp Hq Hpq. apply elem_of_cons in Hp as [->|Hp]; [|eauto].
           assert (q = other) as ->; [|done].
           eapply same_name_same_param; eauto. congruence.
        -- intros Hall p q Hp. apply Hall. by right.
      * split; [done|]. intros Hall.
        rewrite (Hall param other) in Hcompat; [done|by left|done|done].
    + rewrite IH. split.
      * intros Hall p q Hp Hq Hpq. apply elem_of_cons in Hp as [->|Hp]; [|eauto].
        rewrite Hpq, (get_parameter_wf _ _ Hwf Hq) in Hget. done.
      * intros Hall p q Hp. apply Hall. by right.
Qed.

(** C9. On signatures (no two parameters of one name), checking A against B
    gives the verdict of checking B against A. *)
Theorem overlap_signature_symmetric sig1 sig2 :
  Signature_wf sig1 → Signature_wf sig2 →
  _overlap_signature sig1 sig2 = _overlap_signature sig2 sig1.
Proof.
  intros Hwf1 Hwf2. unfold _overlap_signature.
  rewrite (arity_mismatch_sym sig2 sig1).
  destruct (arity_mismatch sig1 sig2); [done|].
  apply Bool.eq_iff_eq_true. rewrite !overlap_loop_true by done.
  split; intros Hall p q Hp Hq Hpq;
    rewrite annotations_compatible_sym; apply Hall; done.
Qed.

(** [f(x: int)] against [f(x: int | str)]: a conflict, seen from both sides. *)
Lemma overlap_signature_symmetric_witness :
  Signature_wf (signature Samples.f_int)
  ∧ Signature_wf (signature Samples.f_int_or_str)
  ∧ _overlap_signature (signature Samples.f_int) (signature Samples.f_int_or_str)
    = _overlap_signature (signature Samples.f_int_or_str) (signature Samples.f_int).
Proof.
  assert (H1 : Signature_wf (signature Samples.f_int)).
  { unfold Signature_wf. apply (bool_decide_unpack _). by vm_compute. }
  assert (H2 : Signature_wf (signature Samples.f_int_or_str)).
  { unfold Signature_wf. apply (bool_decide_unpack _). by vm_compute. }
  split_and!; [exact H1|exact H2|].
  exact (overlap_signature_symmetric _ _ H1 H2).
Defined.

Example int_conflicts_with_int_or_str :
  _overlap_signature (signature Samples.f_int) (signature Samples.f_int_or_str) = true.
Proof. reflexivity. Qed.

(** ** Registration *)

Lemma register_fold (more : list Callable) :
  ∀ item warnings,
    let registered :=
      foldl (fun '(item, warnings) f =>
               let '(item', new_warnings) := OverloadItem.append item f in
               (item', warnings ++ new_warnings))
            (item, warnings) more in
    OverloadItem.name registered.1 = OverloadItem.name item
    ∧ OverloadItem.overloads registered.1 = OverloadItem.overloads item ++ more
    ∧ OverloadItem.signatures registered.1
      = OverloadItem.signatures item ++ (signature <$> more).
Proof.
  induction more as [|func more IH]; intros item warnings; simpl.
  - by rewrite !app_nil_r.
  - destruct (IH (OverloadItem.append item func).1
                (warnings ++ (OverloadItem.append item func).2)) as (Hn & Ho & Hs).
    simpl in *. rewrite Hn, Ho, Hs, <- !app_assoc. done.
Qed.

(** Registries built by registration satisfy the registry invariant. *)
Lemma register_all_consistent func more :
  registry_consistent (OverloadItem.overloads (register_all func more).1)
    (OverloadItem.signatures (register_all func more).1).
Proof.
  unfold registry_consistent, register_all.
  destruct (register_fold more (OverloadItem.__init__ func) []) as (_ & -> & ->).
  done.
Qed.


(** Scenario: [k(x: int)] then [k(x: int, y: int = 0)] are both kept, with a
    warning. *)
Example conflicting_registration_is_kept :
  let k1 := Samples.def "k" [Samples.plain "x" (HClass "int")] None (Samples.returns 0) in
  let k2 := Samples.def "k" [Samples.plain "x" (HClass "int");
                             Samples.with_default "y" (HClass "int") (Samples.an_int 0)]
              None (Samples.returns 1) in
  OverloadItem.overloads (register_all k1 [k2]).1 = [k1; k2]
  ∧ (register_all k1 [k2]).2
    = [ConflictingOverloadWarning "k" (signature k2) (signature k1)].
Proof. split; reflexivity. Qed.

(** ** Class-body assignment *)

Lemma setitem_function_over_data_raises (d : gmap string Slot) key v func :
  d !! key = Some (SlotData v) →
  OverloadDict.__setitem__ d key (AssignFunction func) = Err TypeError.
Proof.
  intros Hkey. unfold OverloadDict.__setitem__, OverloadDict.get. by rewrite Hkey.
Qed.

(** C6, as the code has it. Assigning a non-callable value is ordinary
    storage under every name, one that holds a registry included: the value
    replaces what was there and nothing is raised. *)
Theorem setitem_non_callable_stores (d : gmap string Slot) key value :
  callable value = false →
  ∃ slot,
    OverloadDict.__setitem__ d key value = Ok (<[key := slot]> d, [])
    ∧ (value = AssignNone ∧ slot = SlotNone
       ∨ ∃ v, value = AssignData v ∧ slot = SlotData v).
Proof.
  destruct value as [|v|func|e]; simpl; intros Hcallable; [| |done|done].
  - exists SlotNone. eauto.
  - exists (SlotData v). eauto.
Qed.

Lemma setitem_non_callable_stores_witness :
  callable (AssignData (Samples.an_int 5)) = false
  ∧ ∃ slot,
      OverloadDict.__setitem__ ∅ "x" (AssignData (Samples.an_int 5))
      = Ok (<["x" := slot]> ∅, [])
      ∧ (AssignData (Samples.an_int 5) = AssignNone ∧ slot = SlotNone
         ∨ ∃ v, AssignData (Samples.an_int 5) = AssignData v ∧ slot = SlotData v).
Proof.
  split; [reflexivity|].
  exact (setitem_non_callable_stores ∅ "x" (AssignData (Samples.an_int 5)) eq_refl).
Defined.

(** C6 as stated fails: under a name that holds a registry, assigning a
    non-callable value raises nothing and replaces the registry. *)
Lemma setitem_non_callable_over_registry_is_no_error :
  Samples.class_body_with_f !! "f"
  = Some (SlotItem (OverloadItem.__init__ Samples.f_int))
  ∧ callable (AssignData (Samples.an_int 5)) = false
  ∧ OverloadDict.__setitem__ Samples.class_body_with_f "f"
      (AssignData (Samples.an_int 5))
    = Ok (<["f" := SlotData (Samples.an_int 5)]> Samples.class_body_with_f, [])
  ∧ ∀ e, OverloadDict.__setitem__ Samples.class_body_with_f "f"
           (AssignData (Samples.an_int 5)) ≠ Err e.
Proof.
  split_and!; [by apply lookup_singleton_eq|done|done|done].
Qed.

(** ** The documentation accessor *)

(** C10. When the lookup resolves a candidate, [help] returns a string: the
    candidate's docstring, and the empty string when it has none. *)
Theorem help_returns_a_string item args kwargs func :
  FunctionOverloadDispatcher.best_match
    (FunctionOverloadDispatcher.mk (OverloadItem.name item)
       (OverloadItem.overloads item) (OverloadItem.signatures item)) args kwargs
  = Ok func →
  ∃ doc : string,
    OverloadItem.help item args kwargs = Ok doc
    ∧ (f_doc func = None → doc = EmptyString)
    ∧ (∀ text, f_doc func = Some text → doc = text).
Proof.
  intros Hbest. unfold OverloadItem.help. rewrite Hbest.
  destruct (f_doc func) as [text|]; [|by eexists].
  exists text. split_and!; [|done|congruence].
  by destruct (decide (text = EmptyString)) as [->|].
Qed.

(** [f("a")] resolves the [int | str] overload, which has no docstring. *)
Lemma help_returns_a_string_witness :
  FunctionOverloadDispatcher.best_match
    (FunctionOverloadDispatcher.mk
       (OverloadItem.name (register_all Samples.f_int [Samples.f_int_or_str]).1)
       (OverloadItem.overloads (register_all Samples.f_int [Samples.f_int_or_str]).1)
       (OverloadItem.signatures (register_all Samples.f_int [Samples.f_int_or_str]).1))
    [Samples.a_str 0] []
  = Ok Samples.f_int_or_str
  ∧ f_doc Samples.f_int_or_str = None
  ∧ OverloadItem.help (register_all Samples.f_int [Samples.f_int_or_str]).1
      [Samples.a_str 0] [] = Ok EmptyString.
Proof.
  split_and!; [reflexivity|reflexivity|].
  destruct (help_returns_a_string
              (register_all Samples.f_int [Samples.f_int_or_str]).1
              [Samples.a_str 0] [] Samples.f_int_or_str eq_refl)
    as (doc & Hhelp & Hnone & _).
  rewrite Hhelp. f_equal. exact (Hnone eq_refl).
Defined.

(** ** Errors and the inheritance-chain fallback *)

Lemma zip_fmap_lookup {A B} (f : A → B) (l : list A) i x y :
  zip l (f <$> l) !! i = Some (x, y) → y = f x.
Proof.
  revert i. induction l as [|a l IH]; intros [|i]; simpl; intros Hi;
    simplify_eq/=; eauto.
Qed.

(** The candidate a dispatcher selects was bound to the call's arguments
    through its own signature, so calling it runs its body. *)
Lemma winner_binds disp args kwargs func :
  dispatcher_consistent disp →
  best_match_of disp args kwargs = Ok func →
  is_Some (bind (f_signature func) (call_args disp args) kwargs).
Proof.
  intros Hcons. rewrite best_match_of_loop.
  pose proof (best_match_loop_spec (try_bind_of disp args kwargs) (candidates_of disp)
                (-1) None) as Hspec.
  destruct (best_match_loop _ _ _) as [best|e]; [|done].
  destruct Hspec as [_ [[-> _]|(i & f & sg & s & Hi & Hs & -> & _)]]; [done|].
  simpl. intros [= <-].
  assert (sg = signature f) as ->.
  { destruct disp as [d|gs d]; simpl in Hcons, Hi; unfold registry_consistent in Hcons;
      rewrite Hcons in Hi; by apply zip_fmap_lookup in Hi. }
  unfold candidate_score, try_bind_of in Hs. simpl in Hs.
  unfold signature in Hs.
  destruct (bind (f_signature f) (call_args disp args) kwargs); [eauto|done].
Qed.

Lemma no_local_match gs d args kwargs :
  no_candidate_raises (try_bind_of (Bound gs d) args kwargs)
    (candidates_of (Bound gs d)) →
  ¬ some_candidate_matches (try_bind_of (Bound gs d) args kwargs)
      (candidates_of (Bound gs d)) →
  BoundOverloadDispatcher.best_match d args kwargs = Err NoMatchingOverloadException.
Proof.
  intros Hraises Hnone.
  change (BoundOverloadDispatcher.best_match d args kwargs)
    with (best_match_of (Bound gs d) args kwargs).
  rewrite best_match_of_loop.
  pose proof (best_match_loop_spec (try_bind_of (Bound gs d) args kwargs)
                (candidates_of (Bound gs d)) (-1) None) as Hspec.
  destruct (best_match_loop _ _ _) as [best|e].
  - destruct Hspec as [_ [[-> _]|(i & f & sg & s & Hi & Hs & _ & Hlt & _)]]; [done|].
    destruct Hnone. exists (f, sg), s.
    split_and!; [by eapply list_elem_of_lookup_2|done|lia].
  - destruct Hspec as (i & c & Hi & He & _).
    apply list_elem_of_lookup_2 in Hi. by destruct (Hraises c e Hi).
Qed.

(** C5, as the code has it. Whatever the call of the selected candidate
    yields, an error included, is what the dispatch yields, for both
    dispatchers; over a registry that stores each function with its own
    signature that call runs the candidate's body, so an error raised by the
    body reaches the caller as it is.  In the fallback of the bound
    dispatcher, what the ancestor implementation raises is passed on unless
    it is a [TypeError], which becomes [NoMatchingOverloadException] whether
    it came from binding or from the ancestor's body. *)
Theorem candidate_errors_propagate disp args kwargs :
  (∀ func,
     best_match_of disp args kwargs = Ok func →
     dispatch disp args kwargs
     = mkRun [(func, call_args disp args, kwargs)]
             (call func (call_args disp args) kwargs))
  ∧ (∀ func e,
       dispatcher_consistent disp →
       best_match_of disp args kwargs = Ok func →
       f_body func (call_args disp args) kwargs = Raised e →
       result (dispatch disp args kwargs) = Raised e)
  ∧ (∀ super_call e,
       best_match_of disp args kwargs = Err NoMatchingOverloadException →
       ancestor_of disp = Some super_call →
       call super_call args kwargs = Raised e →
       result (dispatch disp args kwargs)
       = Raised (match e with TypeError => NoMatchingOverloadException | _ => e end)).
Proof.
  split_and!.
  - apply dispatch_winner.
  - intros func e Hcons Hbest Hbody. rewrite (dispatch_winner _ _ _ _ Hbest).
    destruct (winner_binds _ _ _ _ Hcons Hbest) as [b Hb].
    unfold call. simpl. by rewrite Hb.
  - intros super_call e Hbest Hsuper Hcall.
    destruct disp as [d|gs d]; simpl in *; [done|].
    unfold BoundOverloadDispatcher.__call__. rewrite Hbest, Hsuper, Hcall.
    by destruct e.
Qed.

(** A method [m(self, x: int)] whose body raises [ValueError], called on an
    [int]: the caller gets the [ValueError]. *)
Lemma candidate_errors_propagate_witness :
  dispatcher_consistent (Bound Samples.no_parent Samples.bound_m_raising)
  ∧ best_match_of (Bound Samples.no_parent Samples.bound_m_raising) [Samples.an_int 1] []
    = Ok Samples.m_int_raises
  ∧ result (dispatch (Bound Samples.no_parent Samples.bound_m_raising)
              [Samples.an_int 1] [])
    = Raised (OtherException "ValueError").
Proof.
  split_and!; [reflexivity|reflexivity|].
  exact (proj1 (proj2 (candidate_errors_propagate
                         (Bound Samples.no_parent Samples.bound_m_raising)
                         [Samples.an_int 1] []))
           Samples.m_int_raises (OtherException "ValueError")
           eq_refl eq_refl eq_refl).
Defined.

(** C5 as stated fails in the fallback: [m("a")] matches no local candidate,
    the ancestor's [m(x: str)] binds and its body raises [TypeError]; the
    caller gets [NoMatchingOverloadException]. *)
Lemma ancestor_body_TypeError_is_replaced :
  BoundOverloadDispatcher.best_match Samples.bound_m [Samples.a_str 0] []
  = Err NoMatchingOverloadException
  ∧ bind (f_signature Samples.parent_m_raises_TypeError) [Samples.a_str 0] []
    = Some [("x", ASingle (Samples.a_str 0))]
  ∧ f_body Samples.parent_m_raises_TypeError [Samples.a_str 0] [] = Raised TypeError
  ∧ BoundOverloadDispatcher.__call__
      (Samples.parent_with Samples.parent_m_raises_TypeError) Samples.bound_m
      [Samples.a_str 0] []
    = mkRun [(Samples.parent_m_raises_TypeError, [Samples.a_str 0], [])]
            (Raised NoMatchingOverloadException).
Proof. split_and!; reflexivity. Qed.

(** The fallback, whatever [super] finds.  When scoring raises on no local
    candidate and none binds with a non-negative score, the bound dispatcher
    calls what [super] gives for its name, if anything, with the original
    arguments, and a binding mismatch in that call ends the dispatch with
    [NoMatchingOverloadException]; when [super] gives nothing the dispatch
    raises [NoMatchingOverloadException] and calls nothing. *)
Lemma bound_dispatch_falls_back getattr_super d args kwargs :
  no_candidate_raises (try_bind_of (Bound getattr_super d) args kwargs)
    (candidates_of (Bound getattr_super d)) →
  ¬ some_candidate_matches (try_bind_of (Bound getattr_super d) args kwargs)
      (candidates_of (Bound getattr_super d)) →
  match ancestor_of (Bound getattr_super d) with
  | Some super_call =>
      calls (BoundOverloadDispatcher.__call__ getattr_super d args kwargs)
      = [(super_call, args, kwargs)]
      ∧ (bind (f_signature super_call) args kwargs = None →
         call super_call args kwargs = Raised TypeError
         ∧ result (BoundOverloadDispatcher.__call__ getattr_super d args kwargs)
           = Raised NoMatchingOverloadException)
      ∧ (∀ bound_args,
           bind (f_signature super_call) args kwargs = Some bound_args →
           f_body super_call args kwargs ≠ Raised TypeError →
           result (BoundOverloadDispatcher.__call__ getattr_super d args kwargs)
           = f_body super_call args kwargs)
  | None =>
      BoundOverloadDispatcher.__call__ getattr_super d args kwargs
      = mkRun [] (Raised NoMatchingOverloadException)
  end.
Proof.
  intros Hraises Hnone. apply no_local_match in Hnone; [|done].
  unfold BoundOverloadDispatcher.__call__. rewrite Hnone. simpl.
  destruct (getattr_super _ _ _) as [super_call|]; [|done].
  split_and!.
  - by destruct (call super_call args kwargs) as [v|[]].
  - intros Hbind. unfold call. by rewrite Hbind.
  - intros bound_args Hbind Hbody. unfold call. rewrite Hbind.
    by destruct (f_body super_call args kwargs) as [v|[]].
Qed.

Example no_ancestor_no_match :
  BoundOverloadDispatcher.__call__ Samples.no_parent Samples.bound_m
    [Samples.a_float 15] []
  = mkRun [] (Raised NoMatchingOverloadException).
Proof. reflexivity. Qed.


Lemma bind_any_arguments args kwargs : is_Some (bind any_arguments args kwargs).
Proof. destruct args, kwargs; by eexists. Qed.

(** A registry that [super] finds again under the dispatcher's name, and
    whose candidates reject the call, is dispatched on again and again: the
    call ends in [RecursionError] at every recursion limit. *)
Lemma nested_dispatch_recurses classes item instance args kwargs :
  find_attr classes (mro_after (type_of instance) (v_classes instance))
    (OverloadItem.name item) = Some (AttrOverloadItem item) →
  BoundOverloadDispatcher.best_match
    (OverloadItem.__get__ item instance (type_of instance)) args kwargs
  = Err NoMatchingOverloadException →
  ∀ depth,
    result (BoundOverloadDispatcher.__call__ (getattr_super depth classes)
              (OverloadItem.__get__ item instance (type_of instance)) args kwargs)
    = Raised RecursionError.
Proof.
  intros Hfind Hbest depth.
  destruct (bind_any_arguments args kwargs) as [b Hb].
  induction depth as [|depth IH];
    unfold BoundOverloadDispatcher.__call__; rewrite Hbest; simpl;
    rewrite Hfind; unfold call; simpl; rewrite Hb; [done|].
  by rewrite IH.
Qed.

(** C7. The code at a call that the claim covers: class [B] defines the
    overloaded method [m(self, x: int)], class [C] inherits from [B] and
    defines nothing, and no ancestor of [B] defines [m].  On an instance of
    [B] the call [m(1.5)] raises [NoMatchingOverloadException].  On an
    instance of [C] the registry is bound with [C] as owner class, so the
    fallback [super(C, instance)] finds the registry of [B] again, and the
    call ends in [RecursionError], at every recursion limit. *)
Theorem inherited_registry_recurses_without_bound depth :
  find_attr Samples.classes_B_C (mro_after "B" (v_classes Samples.instance_of_C)) "m"
  = None
  ∧ method_call depth Samples.classes_B_C Samples.instance_of_B "m"
      [Samples.a_float 15] []
    = mkRun [] (Raised NoMatchingOverloadException)
  ∧ result (method_call depth Samples.classes_B_C Samples.instance_of_C "m"
              [Samples.a_float 15] [])
    = Raised RecursionError.
Proof.
  split_and!.
  - reflexivity.
  - by destruct depth.
  - apply (nested_dispatch_recurses Samples.classes_B_C
             (OverloadItem.__init__ Samples.m_int) Samples.instance_of_C
             [Samples.a_float 15] []); reflexivity.
Qed.
(** ** Binding produces arguments of the expected shapes *)

Section bind_shapes.
Context (sig : list Param).

Lemma well_shaped_snoc arguments param arg :
  well_shaped sig arguments → param ∈ sig → shape_ok (p_kind param) arg →
  well_shaped sig (arguments ++ [(p_name param, arg)]).
Proof.
  intros Hws Hin Hshape name a Hel.
  apply elem_of_app in Hel as [Hel|Hel]; [by apply Hws|].
  apply list_elem_of_singleton in Hel. simplify_eq. eauto.
Qed.

Lemma bind_positional_shapes args kwargs :
  ∀ parameters arguments bound remaining,
    parameters ⊆ sig → well_shaped sig arguments →
    bind_positional parameters args kwargs arguments = Some (bound, remaining) →
    well_shaped sig bound ∧ remaining ⊆ sig.
Proof.
  induction args as [|arg_val arg_vals IH];
    intros [|param rest] arguments bound remaining Hsub Hws Hbind;
    simpl in Hbind; simplify_eq; try done.
  - assert (rest ⊆ sig) by (intros x Hx; apply Hsub; by right).
    repeat case_match; simplify_eq; done.
  - assert (rest ⊆ sig) by (intros x Hx; apply Hsub; by right).
    assert (param ∈ sig) by (apply Hsub; by left).
    destruct (p_kind param) eqn:Hkind; simplify_eq.
    + eapply IH; [done| |done].
      apply well_shaped_snoc; [done|done|by rewrite Hkind].
    + destruct (is_Some_dec _); [done|].
      eapply IH; [done| |done].
      apply well_shaped_snoc; [done|done|by rewrite Hkind].
    + split; [|done]. apply well_shaped_snoc; [done|done|by rewrite Hkind].
Qed.

Lemma bind_keywords_shapes :
  ∀ parameters kwargs kwargs_param arguments bound,
    parameters ⊆ sig → well_shaped sig arguments →
    (∀ param, kwargs_param = Some param → param ∈ sig ∧ p_kind param = VAR_KEYWORD) →
    bind_keywords parameters kwargs kwargs_param arguments = Some bound →
    well_shaped sig bound.
Proof.
  induction parameters as [|param rest IH];
    intros kwargs kwargs_param arguments bound Hsub Hws Hkw Hbind; simpl in Hbind.
  - destruct kwargs as [|kv kwargs]; [by simplify_eq|].
    destruct kwargs_param as [param|]; simplify_eq.
    destruct (Hkw param eq_refl) as [Hin Hkind].
    apply well_shaped_snoc; [done|done|by rewrite Hkind].
  - assert (rest ⊆ sig) by (intros x Hx; apply Hsub; by right).
    assert (param ∈ sig) by (apply Hsub; by left).
    destruct (p_kind param) eqn:Hkind.
    + destruct (kwargs_get kwargs (p_name param)) as [arg_val|]; [done|].
      destruct (p_default param); [|done]. eapply IH; done.
    + destruct (kwargs_get kwargs (p_name param)) as [arg_val|].
      * eapply IH; [done| |done|done].
        apply well_shaped_snoc; [done|done|by rewrite Hkind].
      * destruct (p_default param); [|done]. eapply IH; done.
    + eapply IH; done.
    + destruct (kwargs_get kwargs (p_name param)) as [arg_val|].
      * eapply IH; [done| |done|done].
        apply well_shaped_snoc; [done|done|by rewrite Hkind].
      * destruct (p_default param); [|done]. eapply IH; done.
    + eapply IH; [done|done| |done]. intros p [= <-]. done.
Qed.

Lemma arguments_get_Some (arguments : list (string * Arg)) name arg :
  arguments_get arguments name = Some arg → (name, arg) ∈ arguments.
Proof.
  unfold arguments_get. intros Hget.
  destruct (list_find _ arguments) as [[i [n a]]|] eqn:Hfind; simplify_eq/=.
  apply list_find_Some in Hfind as (Hi & Hname & _). simpl in Hname. subst n.
  by eapply list_elem_of_lookup_2.
Qed.

Lemma apply_defaults_shapes arguments :
  Signature_wf sig → Forall Param_wf sig → well_shaped sig arguments →
  ∀ parameters, parameters ⊆ sig → well_shaped sig (apply_defaults parameters arguments).
Proof.
  intros Hwf Hparams Hws. induction parameters as [|param rest IH]; intros Hsub; simpl.
  { intros name arg Hel. by apply not_elem_of_nil in Hel. }
  assert (Hrest : well_shaped sig (apply_defaults rest arguments))
    by (apply IH; intros x Hx; apply Hsub; by right).
  assert (Hin : param ∈ sig) by (apply Hsub; by left).
  assert (Hcons : ∀ arg, shape_ok (p_kind param) arg →
            well_shaped sig ((p_name param, arg) :: apply_defaults rest arguments)).
  { intros arg Hshape name a Hel. apply elem_of_cons in Hel as [Heq|Hel];
      [simplify_eq; eauto|by apply Hrest]. }
  destruct (arguments_get arguments (p_name param)) as [val|] eqn:Hget.
  - apply Hcons. apply arguments_get_Some in Hget.
    destruct (Hws _ _ Hget) as (p & Hp & Hname & Hshape).
    by rewrite <- (same_name_same_param sig p param Hwf Hp Hin Hname).
  - pose proof (proj1 (Forall_forall _ _) Hparams param Hin) as Hpwf.
    unfold Param_wf in Hpwf.
    destruct (p_default param) as [val|] eqn:Hdefault.
    + apply Hcons. destruct (p_kind param); try done; naive_solver.
    + destruct (p_kind param) eqn:Hkind; try done; by apply Hcons.
Qed.

(** What [bind] returns pairs every name with a parameter of the signature
    and a value of the shape its kind asks for: the catch-all cases of
    [_score_any_type_hint] and [signature_matches_loop] are not reached. *)
Lemma bind_shapes args kwargs bound_args :
  Signature_wf sig → Forall Param_wf sig →
  bind sig args kwargs = Some bound_args →
  ∀ name arg, (name, arg) ∈ bound_args →
    ∃ param, get_parameter sig name = Some param ∧ shape_ok (p_kind param) arg.
Proof.
  intros Hwf Hparams Hbind name arg Hel. unfold bind in Hbind.
  destruct (bind_positional sig args kwargs []) as [[arguments remaining]|] eqn:Hpos;
    simplify_eq/=.
  destruct (bind_keywords remaining kwargs None arguments) as [arguments'|] eqn:Hkw;
    simplify_eq/=.
  apply bind_positional_shapes in Hpos as [Hws Hsub];
    [|done|intros ? ? Hnil; by apply not_elem_of_nil in Hnil].
  apply bind_keywords_shapes in Hkw; [|done|done|done].
  destruct (apply_defaults_shapes arguments' Hwf Hparams Hkw sig (reflexivity _)
              name arg Hel) as (param & Hin & <- & Hshape).
  exists param. split; [by apply get_parameter_wf|done].
Qed.

End bind_shapes.

(** * Further properties of the module *)

(** ** The matcher *)

Lemma score_union arg members :
  _score_type_hint arg (HUnion members) = score_members arg members.
Proof.
  induction members as [|subhint rest IH]; [done|].
  simpl in *. destruct (_score_type_hint arg subhint) as [score|e]; [|done].
  by destruct (0 <? score).
Qed.

Lemma score_generic_union arg members args :
  _score_type_hint arg (HGeneric (HUnion members) args) = score_members arg members.
Proof.
  induction members as [|subhint rest IH]; [done|].
  simpl in *. destruct (_score_type_hint arg subhint) as [score|e]; [|done].
  by destruct (0 <? score).
Qed.

(** [_score_type_hint] is the body after the erasure, run on the erased
    hint. *)
Lemma score_type_hint_erased arg hint :
  _score_type_hint arg hint = score_after_erasure arg (erase_origin hint).
Proof.
  destruct hint as [| |cls|origin args|members|name]; try done.
  - destruct origin as [| |cls|origin' args'|members|name]; try done.
    apply score_generic_union.
  - apply score_union.
Qed.

Lemma score_members_range arg members score :
  score_members arg members = Ok score → score = -1 ∨ score = 1.
Proof.
  induction members as [|subhint rest IH]; simpl.
  - intros [= <-]. by left.
  - destruct (_score_type_hint arg subhint) as [z|e]; [|done].
    destruct (0 <? z); [intros [= <-]; by right|done].
Qed.

Lemma score_type_hint_range arg hint score :
  _score_type_hint arg hint = Ok score → score = -1 ∨ score = 0 ∨ score = 1.
Proof.
  rewrite score_type_hint_erased.
  destruct (erase_origin hint) as [| |cls|origin args|members|name]; simpl;
    try (intros [= <-]; auto; fail); try done.
  - destruct (isinstance arg cls); intros [= <-]; auto.
  - intros Hscore. apply score_members_range in Hscore. tauto.
Qed.

(** Induction on hints that reaches the origin of a generic, its arguments
    and the members of a union. *)
Lemma TypeHint_nested_ind (P : TypeHint → Prop) :
  P HEmpty → P HAny → (∀ cls, P (HClass cls)) →
  (∀ origin args, P origin → Forall P args → P (HGeneric origin args)) →
  (∀ members, Forall P members → P (HUnion members)) →
  (∀ name, P (HNotAClass name)) →
  ∀ hint, P hint.
Proof.
  intros Hempty Hany Hclass Hgeneric Hunion Hnot.
  fix IH 1. intros [| |cls|origin args|members|name].
  - exact Hempty.
  - exact Hany.
  - apply Hclass.
  - apply Hgeneric; [apply IH|].
    induction args as [|hint args IHargs]; constructor; [apply IH|done].
  - apply Hunion. induction members as [|hint members IHm]; constructor; [apply IH|done].
  - apply Hnot.
Qed.

Lemma score_members_raises arg members e :
  Forall (fun hint => ∀ e, _score_type_hint arg hint = Err e → e = TypeError) members →
  score_members arg members = Err e → e = TypeError.
Proof.
  induction 1 as [|subhint rest Hhead _ IH]; simpl; [done|].
  destruct (_score_type_hint arg subhint) as [z|e'] eqn:Hsub.
  - destruct (0 <? z); [done|apply IH].
  - intros [= <-]. by apply Hhead.
Qed.

Lemma score_type_hint_raises arg hint e :
  _score_type_hint arg hint = Err e → e = TypeError.
Proof.
  revert e. induction hint as [| |cls|origin args IHorigin _|members IH|name]
    using TypeHint_nested_ind; intros e; try done.
  - simpl. by destruct (isinstance arg cls).
  - rewrite score_type_hint_erased. simpl.
    destruct origin as [| |cls|origin' args'|members|name]; simpl; try done;
      try by intros [= <-].
    + by destruct (isinstance arg cls).
    + rewrite <- score_union. apply IHorigin.
  - rewrite score_union. by apply score_members_raises.
  - by intros [= <-].
Qed.

(** X1. When [_score_type_hint] returns, it returns -1, 0 or 1, and it
    returns 0 exactly when the hint, after the one erasure of its
    [__origin__], is absent or [Any]; when it raises, it raises [TypeError],
    which it does whenever the erased hint is not a class: [typing.Union]
    (the origin of [typing.Union[...]] and [Optional[...]]) or a hint that is
    still parameterized. *)
Theorem score_type_hint_values arg hint :
  (∀ score, _score_type_hint arg hint = Ok score →
            score = -1 ∨ score = 0 ∨ score = 1)
  ∧ (_score_type_hint arg hint = Ok 0
     ↔ erase_origin hint = HEmpty ∨ erase_origin hint = HAny)
  ∧ (∀ e, _score_type_hint arg hint = Err e → e = TypeError)
  ∧ ((∃ name, erase_origin hint = HNotAClass name)
     ∨ (∃ origin args, erase_origin hint = HGeneric origin args) →
     _score_type_hint arg hint = Err TypeError).
Proof.
  split_and!.
  - apply score_type_hint_range.
  - rewrite score_type_hint_erased.
    destruct (erase_origin hint) as [| |cls|origin args|members|name]; simpl.
    + split; auto.
    + split; auto.
    + destruct (isinstance arg cls); split; intros H; try done; by destruct H.
    + split; intros H; try done; by destruct H.
    + split; [|intros H; by destruct H].
      intros Hscore. apply score_members_range in Hscore. lia.
    + split; intros H; try done; by destruct H.
  - apply score_type_hint_raises.
  - rewrite score_type_hint_erased.
    intros [(name & ->)|(origin & args & ->)]; done.
Qed.

Lemma score_members_one arg members :
  score_members arg members = Ok 1
  ↔ ∃ i subhint,
      members !! i = Some subhint ∧ _score_type_hint arg subhint = Ok 1
      ∧ ∀ j other, (j < i)%nat → members !! j = Some other →
                   ∃ score, _score_type_hint arg other = Ok score.
Proof.
  induction members as [|subhint rest IH]; simpl.
  { split; [done|]. intros (i & h & Hi & _). by rewrite lookup_nil in Hi. }
  destruct (_score_type_hint arg subhint) as [z|e] eqn:Hsub.
  - destruct (Z.ltb_spec 0 z) as [Hpos|Hneg].
    + split; [|done]. intros _. exists 0%nat, subhint.
      split_and!; [done| |intros j other Hlt; lia].
      destruct (score_type_hint_range _ _ _ Hsub) as [?|[?|?]]; [lia|lia|by subst].
    + rewrite IH. split.
      * intros (i & h & Hi & Hone & Hbefore). exists (S i), h.
        split_and!; [done|done|]. intros [|j] other Hlt Hj; simpl in Hj.
        -- simplify_eq. eauto.
        -- eapply Hbefore; [|done]. lia.
      * intros ([|i] & h & Hi & Hone & Hbefore); simpl in Hi.
        -- injection Hi as <-. rewrite Hsub in Hone. injection Hone as ->. lia.
        -- exists i, h. split_and!; [done|done|].
           intros j other Hlt Hj. apply (Hbefore (S j)); [lia|done].
  - split; [done|]. intros ([|i] & h & Hi & Hone & Hbefore); simpl in Hi.
    + injection Hi as <-. congruence.
    + destruct (Hbefore 0%nat subhint) as [z Hz]; [lia|done|]. congruence.
Qed.

Lemma score_members_minus_one arg members :
  score_members arg members = Ok (-1)
  ↔ ∀ subhint, subhint ∈ members →
               ∃ score, _score_type_hint arg subhint = Ok score ∧ score ≠ 1.
Proof.
  induction members as [|subhint rest IH]; simpl.
  { split; [|done]. intros _ h Hin. by apply not_elem_of_nil in Hin. }
  destruct (_score_type_hint arg subhint) as [z|e] eqn:Hsub.
  - destruct (Z.ltb_spec 0 z) as [Hpos|Hneg].
    + split; [done|]. intros Hall.
      destruct (Hall subhint) as (z' & Hz' & Hne); [by left|].
      rewrite Hsub in Hz'. injection Hz' as <-.
      destruct (score_type_hint_range _ _ _ Hsub) as [?|[?|?]]; lia.
    + rewrite IH. split.
      * intros Hall h Hin. apply elem_of_cons in Hin as [->|Hin]; [|by apply Hall].
        exists z. split; [done|lia].
      * intros Hall h Hin. apply Hall. by right.
  - split; [done|]. intros Hall.
    destruct (Hall subhint) as (z' & Hz' & _); [by left|]. congruence.
Qed.

(** X2. A union hint scores MATCH exactly when one of its members scores
    MATCH on the value and no member before it raises, and REJECT exactly
    when every member scores without a MATCH; a member that is [Any] or a
    member that rejects does not make the union accept.  When no member
    raises, as in a union of classes, the union scores MATCH exactly when a
    member does, and REJECT exactly when none does. *)
Theorem score_union_member arg members :
  (_score_type_hint arg (HUnion members) = Ok 1
   ↔ ∃ i subhint,
       members !! i = Some subhint ∧ _score_type_hint arg subhint = Ok 1
       ∧ ∀ j other, (j < i)%nat → members !! j = Some other →
                    ∃ score, _score_type_hint arg other = Ok score)
  ∧ (_score_type_hint arg (HUnion members) = Ok (-1)
     ↔ ∀ subhint, subhint ∈ members →
                  ∃ score, _score_type_hint arg subhint = Ok score ∧ score ≠ 1)
  ∧ ((∀ subhint, subhint ∈ members → ∃ score, _score_type_hint arg subhint = Ok score) →
     (_score_type_hint arg (HUnion members) = Ok 1
      ↔ ∃ subhint, subhint ∈ members ∧ _score_type_hint arg subhint = Ok 1)
     ∧ (_score_type_hint arg (HUnion members) = Ok (-1)
        ↔ ∀ subhint, subhint ∈ members → _score_type_hint arg subhint ≠ Ok 1)).
Proof.
  rewrite score_union. split_and!.
  - apply score_members_one.
  - apply score_members_minus_one.
  - intros Hok. split.
    + rewrite score_members_one. split.
      * intros (i & h & Hi & Hone & _). exists h.
        split; [by eapply list_elem_of_lookup_2|done].
      * intros (h & Hin & Hone). apply list_elem_of_lookup_1 in Hin as [i Hi].
        exists i, h. split_and!; [done|done|].
        intros j other _ Hj. apply Hok. by eapply list_elem_of_lookup_2.
    + rewrite score_members_minus_one. split.
      * intros Hall h Hin Hone. destruct (Hall h Hin) as (z & Hz & Hne). congruence.
      * intros Hall h Hin. destruct (Hok h Hin) as [z Hz]. exists z.
        split; [done|]. intros ->. by apply (Hall h Hin).
Qed.

Section subclass.
Context (arg arg' : Value) (Hsub : v_classes arg ⊆ v_classes arg').

Lemma isinstance_subclass cls : isinstance arg cls = true → isinstance arg' cls = true.
Proof.
  unfold isinstance. rewrite !bool_decide_eq_true. apply Hsub.
Qed.

(** What the induction carries: a MATCH stays a MATCH, and a hint that
    scores on the first value scores on the second. *)
Lemma score_members_carries_over members :
  Forall (fun hint =>
            (_score_type_hint arg hint = Ok 1 → _score_type_hint arg' hint = Ok 1)
            ∧ (∀ score, _score_type_hint arg hint = Ok score →
                        ∃ score', _score_type_hint arg' hint = Ok score')) members →
  (score_members arg members = Ok 1 → score_members arg' members = Ok 1)
  ∧ (∀ score, score_members arg members = Ok score →
              ∃ score', score_members arg' members = Ok score').
Proof.
  induction 1 as [|subhint rest [Hone Hsome] _ [IHone IHsome]]; simpl.
  { split; [done|]. eauto. }
  destruct (_score_type_hint arg subhint) as [z|e] eqn:Hz; [|done].
  destruct (Hsome z eq_refl) as [z' Hz']. rewrite Hz'.
  destruct (Z.ltb_spec 0 z) as [Hpos|Hneg].
  - assert (z = 1) as ->
      by (destruct (score_type_hint_range _ _ _ Hz) as [?|[?|?]]; lia).
    rewrite (Hone eq_refl) in Hz'. injection Hz' as <-. simpl. eauto.
  - destruct (0 <? z'); [eauto|]. split; [apply IHone|apply IHsome].
Qed.

Lemma score_type_hint_carries_over hint :
  (_score_type_hint arg hint = Ok 1 → _score_type_hint arg' hint = Ok 1)
  ∧ (∀ score, _score_type_hint arg hint = Ok score →
              ∃ score', _score_type_hint arg' hint = Ok score').
Proof.
  induction hint as [| |cls|origin args IHorigin _|members IH|name]
    using TypeHint_nested_ind.
  - simpl. eauto.
  - simpl. eauto.
  - simpl. destruct (isinstance arg cls) eqn:Hin.
    + rewrite (isinstance_subclass cls Hin). eauto.
    + split; [done|]. destruct (isinstance arg' cls); eauto.
  - destruct origin as [| |cls|origin' args'|members|name].
    + simpl. eauto.
    + simpl. eauto.
    + exact IHorigin.
    + simpl. split; [done|]. by intros.
    + rewrite !score_generic_union, <- !score_union. exact IHorigin.
    + simpl. split; [done|]. by intros.
  - rewrite !score_union. by apply score_members_carries_over.
  - simpl. split; [done|]. by intros.
Qed.

End subclass.

(** X3. Substitutability at the matcher: a value that is an instance of every
    class another value is an instance of scores MATCH on every hint the
    other one matches. *)
Theorem score_type_hint_subclass arg arg' hint :
  v_classes arg ⊆ v_classes arg' →
  _score_type_hint arg hint = Ok 1 → _score_type_hint arg' hint = Ok 1.
Proof.
  intros Hsub. apply (score_type_hint_carries_over arg arg' Hsub hint).
Qed.

(** A [bool] is an [int]: it matches [int | str]. *)
Lemma score_type_hint_subclass_witness :
  v_classes (Samples.an_int 1) ⊆ v_classes (Samples.a_bool 1)
  ∧ _score_type_hint (Samples.an_int 1) (HUnion [HClass "str"; HClass "int"]) = Ok 1
  ∧ _score_type_hint (Samples.a_bool 1) (HUnion [HClass "str"; HClass "int"]) = Ok 1.
Proof.
  assert (Hsub : v_classes (Samples.an_int 1) ⊆ v_classes (Samples.a_bool 1)).
  { intros cls Hin. simpl in *. by right. }
  split_and!; [exact Hsub|reflexivity|].
  exact (score_type_hint_subclass (Samples.an_int 1) (Samples.a_bool 1)
           (HUnion [HClass "str"; HClass "int"]) Hsub eq_refl).
Defined.

(** ** Scores of parameters and signatures *)

Lemma sum_scores_counts hint (values : list Value) :
  (∀ a, a ∈ values → ∃ score, _score_type_hint a hint = Ok score) →
  sum_scores hint values
  = Ok (count_scoring 1 hint values - count_scoring (-1) hint values).
Proof.
  unfold count_scoring. induction values as [|a values IH]; intros Hall; [done|].
  cbn [sum_scores]. destruct (Hall a) as [z Hz]; [by left|].
  rewrite Hz, IH by (intros; apply Hall; by right).
  rewrite !filter_cons. f_equal.
  destruct (score_type_hint_range _ _ _ Hz) as [H|[H|H]]; subst z;
    repeat case_decide; try congruence; simpl length; lia.
Qed.

Lemma sum_scores_raises hint (values : list Value) e :
  (∃ a, a ∈ values ∧ _score_type_hint a hint = Err e) →
  sum_scores hint values = Err e.
Proof.
  intros (a & Hin & Ha).
  assert (e = TypeError) as -> by (by apply (score_type_hint_raises a hint)).
  induction values as [|b values IH]; [by apply not_elem_of_nil in Hin|].
  cbn [sum_scores]. destruct (_score_type_hint b hint) as [z|e'] eqn:Hb.
  - rewrite IH; [done|]. apply elem_of_cons in Hin as [->|Hin]; [congruence|done].
  - by rewrite (score_type_hint_raises b hint e' Hb).
Qed.

(** X4. The score of a variadic parameter is the number of its values that
    score MATCH minus the number that score REJECT, so the parameter is
    rejected exactly when the rejected values outnumber the matching ones;
    and when the hint cannot be scored against one of the values, the
    exception of that value is the outcome of the parameter. *)
Theorem variadic_score_counts param :
  (p_kind param = VAR_POSITIONAL → ∀ vs,
     ((∀ a, a ∈ vs → ∃ score, _score_type_hint a (p_annotation param) = Ok score) →
      _score_any_type_hint (ATuple vs) param
      = Ok (count_scoring 1 (p_annotation param) vs
            - count_scoring (-1) (p_annotation param) vs))
     ∧ (∀ e, (∃ a, a ∈ vs ∧ _score_type_hint a (p_annotation param) = Err e) →
             _score_any_type_hint (ATuple vs) param = Err e))
  ∧ (p_kind param = VAR_KEYWORD → ∀ kvs,
       ((∀ a, a ∈ kvs.*2 → ∃ score, _score_type_hint a (p_annotation param) = Ok score) →
        _score_any_type_hint (ADict kvs) param
        = Ok (count_scoring 1 (p_annotation param) kvs.*2
              - count_scoring (-1) (p_annotation param) kvs.*2))
       ∧ (∀ e, (∃ a, a ∈ kvs.*2 ∧ _score_type_hint a (p_annotation param) = Err e) →
               _score_any_type_hint (ADict kvs) param = Err e)).
Proof.
  unfold _score_any_type_hint.
  split; intros -> values; (split; [apply sum_scores_counts|intros e; apply sum_scores_raises]).
Qed.

(** [*args: int] with the values [(1, "a", 2)]: two MATCH, one REJECT. *)
Example variadic_score_two_minus_one :
  _score_any_type_hint
    (ATuple [Samples.an_int 1; Samples.a_str 2; Samples.an_int 3])
    (mkParam "args" VAR_POSITIONAL (HClass "int") None) = Ok 1.
Proof. reflexivity. Qed.

Lemma signature_matches_loop_sum sig items scores :
  Forall2 (fun item score => partial_score sig item = Some (Ok score)) items scores →
  ∀ score, signature_matches_loop sig items score
           = Ok (if existsb (fun z => z <? 0) scores then -1 else score + py_sum scores).
Proof.
  induction 1 as [|[name arg] partial items scores Hitem _ IH]; intros score; simpl.
  - f_equal. lia.
  - unfold partial_score in Hitem. simpl in Hitem.
    destruct (get_parameter sig name) as [param|]; [|done].
    simpl in Hitem. injection Hitem as Hitem. rewrite Hitem.
    destruct (partial <? 0); [done|].
    rewrite IH. simpl. destruct (existsb _ scores); [done|].
    unfold py_sum. simpl. f_equal. lia.
Qed.

(** X5. A signature's score is REJECT as soon as one bound argument has a
    negative score, and otherwise the sum of the arguments' scores; nothing
    but -1 or a non-negative total is ever returned. *)
Theorem signature_matches_sum sig bound_args scores :
  Forall2 (fun item score => partial_score sig item = Some (Ok score)) bound_args scores →
  _signature_matches sig bound_args
  = Ok (if existsb (fun z => z <? 0) scores then -1 else py_sum scores)
  ∧ (_signature_matches sig bound_args = Ok (-1) ↔ ∃ score, score ∈ scores ∧ score < 0)
  ∧ ((∃ total, _signature_matches sig bound_args = Ok total ∧ 0 ≤ total)
     ↔ ∀ score, score ∈ scores → 0 ≤ score).
Proof.
  intros Hscores. unfold _signature_matches.
  rewrite (signature_matches_loop_sum _ _ _ Hscores 0). simpl.
  assert (Hsum : (∀ score, score ∈ scores → 0 ≤ score) → 0 ≤ py_sum scores).
  { clear. induction scores as [|z scores IH]; intros Hall; simpl; [lia|].
    assert (0 ≤ z) by (apply Hall; by left).
    assert (0 ≤ py_sum scores) by (apply IH; intros; apply Hall; by right).
    unfold py_sum in *. lia. }
  destruct (existsb _ scores) eqn:Hex.
  - apply existsb_exists in Hex as (z & Hin & Hneg).
    apply list_elem_of_In in Hin. apply Z.ltb_lt in Hneg.
    split_and!; [done|split; eauto|].
    split.
    + intros (total & Htotal & Hpos). injection Htotal as <-. lia.
    + intros Hall. specialize (Hall z Hin). lia.
  - assert (Hall : ∀ score, score ∈ scores → 0 ≤ score).
    { intros z Hin. destruct (Z.ltb_spec z 0) as [Hneg|]; [|done].
      assert (existsb (fun z => z <? 0) scores = true); [|congruence].
      apply existsb_exists. exists z. split; [by apply list_elem_of_In|].
      by apply Z.ltb_lt. }
    specialize (Hsum Hall).
    split_and!; [done| |].
    + split.
      * intros Heq. injection Heq as Heq. lia.
      * intros (z & Hin & Hneg). specialize (Hall z Hin). lia.
    + split; [done|]. intros _. eauto.
Qed.

(** [h(x: int, y: float)] bound to [(1, "a")]: scores 1 and -1, so REJECT. *)
Lemma signature_matches_sum_witness :
  Forall2 (fun item score =>
             partial_score (signature Samples.h_int_float) item = Some (Ok score))
    [("x", ASingle (Samples.an_int 1)); ("y", ASingle (Samples.a_str 0))] [1; -1]
  ∧ _signature_matches (signature Samples.h_int_float)
      [("x", ASingle (Samples.an_int 1)); ("y", ASingle (Samples.a_str 0))] = Ok (-1).
Proof.
  assert (H : Forall2
            (fun item score =>
               partial_score (signature Samples.h_int_float) item = Some (Ok score))
            [("x", ASingle (Samples.an_int 1)); ("y", ASingle (Samples.a_str 0))] [1; -1]).
  { repeat constructor. }
  split; [exact H|].
  exact (proj1 (signature_matches_sum _ _ _ H)).
Defined.

Lemma score_any_wildcard arg param :
  p_annotation param = HEmpty ∨ p_annotation param = HAny →
  shape_ok (p_kind param) arg →
  _score_any_type_hint arg param = Ok 0.
Proof.
  intros Hwild Hshape. unfold _score_any_type_hint.
  assert (Hzero : ∀ values : list Value, sum_scores (p_annotation param) values = Ok 0).
  { intros values. induction values as [|a values IH]; [done|].
    cbn [sum_scores]. rewrite IH. by destruct Hwild as [-> | ->]. }
  destruct (p_kind param), arg; simpl in Hshape; try done; try apply Hzero;
    by destruct Hwild as [-> | ->].
Qed.

(** X6. A function without annotations (or with [Any] everywhere) scores 0
    on every call that binds to its signature: it is never rejected on
    types, and never preferred to a candidate with a matching annotation. *)
Theorem unannotated_signature_scores_zero sig args kwargs bound_args :
  Signature_wf sig → Forall Param_wf sig →
  (∀ param, param ∈ sig → p_annotation param = HEmpty ∨ p_annotation param = HAny) →
  bind sig args kwargs = Some bound_args →
  _signature_matches sig bound_args = Ok 0.
Proof.
  intros Hwf Hparams Hwild Hbind.
  pose proof (bind_shapes sig args kwargs bound_args Hwf Hparams Hbind) as Hshapes.
  unfold _signature_matches.
  assert (Hloop : ∀ score, signature_matches_loop sig bound_args score = Ok score);
    [|apply Hloop].
  clear Hbind. induction bound_args as [|[name arg] rest IH]; intros score; [done|].
  simpl. assert (Hhere : (name, arg) ∈ (name, arg) :: rest) by (by left).
  destruct (Hshapes name arg Hhere) as (param & Hget & Hshape).
  rewrite Hget.
  rewrite (score_any_wildcard arg param);
    [|apply Hwild; by apply (get_parameter_Some sig name)|done].
  simpl. rewrite IH; [f_equal; lia|]. intros n a Hin. apply Hshapes. by right.
Qed.

(** The bare [*args] signature called with three arguments of mixed types. *)
Lemma unannotated_signature_scores_zero_witness :
  Signature_wf Samples.k_star
  ∧ Forall Param_wf Samples.k_star
  ∧ bind Samples.k_star [Samples.an_int 1; Samples.a_str 2; Samples.a_float 3] []
    = Some [("args", ATuple [Samples.an_int 1; Samples.a_str 2; Samples.a_float 3])]
  ∧ _signature_matches Samples.k_star
      [("args", ATuple [Samples.an_int 1; Samples.a_str 2; Samples.a_float 3])] = Ok 0.
Proof.
  assert (Hwf : Signature_wf Samples.k_star).
  { unfold Signature_wf. apply (bool_decide_unpack _). by vm_compute. }
  assert (Hparams : Forall Param_wf Samples.k_star).
  { repeat constructor. }
  assert (Hwild : ∀ param, param ∈ Samples.k_star →
            p_annotation param = HEmpty ∨ p_annotation param = HAny).
  { intros param Hin. apply list_elem_of_singleton in Hin. subst param. by left. }
  split_and!; [exact Hwf|exact Hparams|reflexivity|].
  exact (unannotated_signature_scores_zero Samples.k_star
           [Samples.an_int 1; Samples.a_str 2; Samples.a_float 3] [] _
           Hwf Hparams Hwild eq_refl).
Defined.
(** ** More on the Conflict Detector *)

Lemma overlap_loop_false items sig2 param other :
  param ∈ items →
  get_parameter sig2 (p_name param) = Some other →
  annotations_compatible (p_annotation param) (p_annotation other) = false →
  overlap_loop items sig2 = false.
Proof.
  intros Hin Hget Hcompat.
  induction items as [|p rest IH]; [by apply not_elem_of_nil in Hin|]. simpl.
  apply elem_of_cons in Hin as [<-|Hin].
  - by rewrite Hget, Hcompat.
  - destruct (get_parameter sig2 (p_name p)) as [q|]; [|by apply IH].
    destruct (annotations_compatible (p_annotation p) (p_annotation q));
      [by apply IH|done].
Qed.

Lemma overlap_loop_all items sig2 :
  (∀ param other,
     param ∈ items → get_parameter sig2 (p_name param) = Some other →
     annotations_compatible (p_annotation param) (p_annotation other) = true) →
  overlap_loop items sig2 = true.
Proof.
  induction items as [|p rest IH]; intros Hall; [done|]. simpl.
  destruct (get_parameter sig2 (p_name p)) as [q|] eqn:Hget.
  - rewrite (Hall p q); [|by left|done]. apply IH. intros. apply Hall; [by right|done].
  - apply IH. intros. apply Hall; [by right|done].
Qed.

(** X7. A signature always conflicts with itself: registering a second
    function with the same signature warns.  (Unions have members, as every
    [types.UnionType] does.) *)
Theorem overlap_signature_reflexive sig :
  Signature_wf sig →
  (∀ param, param ∈ sig → erase_origin (p_annotation param) ≠ HUnion []) →
  _overlap_signature sig sig = true.
Proof.
  intros Hwf Hunion. unfold _overlap_signature.
  assert (arity_mismatch sig sig = false) as ->.
  { apply not_true_iff_false. rewrite arity_mismatch_ends. intros (H & _). done. }
  apply overlap_loop_all. intros param other Hin Hget.
  apply get_parameter_Some in Hget as [Hother Hname].
  assert (other = param) as -> by (by eapply same_name_same_param).
  specialize (Hunion param Hin).
  unfold annotations_compatible.
  destruct (erase_origin (p_annotation param)) as [| |cls|origin args|members|name];
    try done.
  - simpl. by rewrite bool_decide_eq_true_2.
  - simpl. by rewrite bool_decide_eq_true_2.
  - cbn [is_empty_or_Any isinstance_UnionType orb union_args].
    apply any_in_sorted. destruct members as [|m members]; [done|].
    exists m. split; by left.
  - simpl. by rewrite bool_decide_eq_true_2.
Qed.

Lemma overlap_signature_reflexive_witness :
  Signature_wf (signature Samples.f_int_or_str)
  ∧ _overlap_signature (signature Samples.f_int_or_str) (signature Samples.f_int_or_str)
    = true.
Proof.
  assert (Hwf : Signature_wf (signature Samples.f_int_or_str)).
  { unfold Signature_wf. apply (bool_decide_unpack _). by vm_compute. }
  split; [exact Hwf|].
  apply (overlap_signature_reflexive _ Hwf).
  intros param Hin. apply list_elem_of_singleton in Hin. by subst param.
Defined.

(** X8. Only annotated parameters of shared names can clear a pair: when, for
    every parameter name the two signatures share, one side is unannotated or
    [Any], the detector reports a conflict unless the arity step rules it out;
    parameters present on one side only are not looked at. *)
Theorem overlap_signature_wildcards sig1 sig2 :
  (∀ param other,
     param ∈ sig1 → get_parameter sig2 (p_name param) = Some other →
     is_empty_or_Any (erase_origin (p_annotation param)) = true
     ∨ is_empty_or_Any (erase_origin (p_annotation other)) = true) →
  _overlap_signature sig1 sig2 = negb (arity_mismatch sig1 sig2).
Proof.
  intros Hwild. unfold _overlap_signature.
  destruct (arity_mismatch sig1 sig2); [done|]. simpl.
  apply overlap_loop_all. intros param other Hin Hget.
  unfold annotations_compatible.
  destruct (Hwild param other Hin Hget) as [-> | ->]; [done|].
  by rewrite orb_true_r.
Qed.

(** [hello(self, x)] against [hello(self, x: int)]. *)
Lemma overlap_signature_wildcards_witness :
  _overlap_signature
    [Samples.plain "self" HEmpty; Samples.plain "x" HEmpty]
    [Samples.plain "self" HEmpty; Samples.plain "x" (HClass "int")]
  = true.
Proof.
  apply (overlap_signature_wildcards
           [Samples.plain "self" HEmpty; Samples.plain "x" HEmpty]
           [Samples.plain "self" HEmpty; Samples.plain "x" (HClass "int")]).
  intros param other Hin _. left.
  apply elem_of_cons in Hin as [->|Hin]; [done|].
  apply list_elem_of_singleton in Hin. by subst param.
Defined.

(** X9. Two signatures that annotate a shared parameter name with different
    classes are never reported, whatever the rest of them says and even when
    one class is a subclass of the other. *)
Theorem overlap_signature_distinct_classes sig1 sig2 param other cls cls' :
  param ∈ sig1 →
  get_parameter sig2 (p_name param) = Some other →
  erase_origin (p_annotation param) = HClass cls →
  erase_origin (p_annotation other) = HClass cls' →
  cls ≠ cls' →
  _overlap_signature sig1 sig2 = false.
Proof.
  intros Hin Hget Hcls Hcls' Hne. unfold _overlap_signature.
  destruct (arity_mismatch sig1 sig2); [done|].
  eapply overlap_loop_false; [done|done|].
  unfold annotations_compatible. rewrite Hcls, Hcls'. simpl.
  apply bool_decide_eq_false_2. congruence.
Qed.

(** [f(x: bool)] against [f(x: int)]: not reported, although [f(True)]
    binds and matches both. *)
Lemma overlap_signature_distinct_classes_witness :
  _overlap_signature [Samples.plain "x" (HClass "bool")] [Samples.plain "x" (HClass "int")]
  = false
  ∧ _signature_matches [Samples.plain "x" (HClass "bool")]
      [("x", ASingle (Samples.a_bool 1))] = Ok 1
  ∧ _signature_matches [Samples.plain "x" (HClass "int")]
      [("x", ASingle (Samples.a_bool 1))] = Ok 1.
Proof.
  split_and!; [|reflexivity|reflexivity].
  apply (overlap_signature_distinct_classes
           [Samples.plain "x" (HClass "bool")] [Samples.plain "x" (HClass "int")]
           (Samples.plain "x" (HClass "bool")) (Samples.plain "x" (HClass "int"))
           "bool" "int"); [by left|reflexivity|reflexivity|reflexivity|done].
Defined.

(** ** Registries *)

Lemma register_all_append_all func more :
  (register_all func more).1 = append_all (OverloadItem.__init__ func) more.
Proof.
  unfold register_all, append_all. generalize (OverloadItem.__init__ func).
  generalize (@nil Warning).
  induction more as [|f more IH]; intros warnings item; [done|]. simpl. apply IH.
Qed.

(** X10. A registry keeps the name of its first function, counts one entry
    per registration, and pairs every function with its own signature, so
    that each registered function is a candidate of every dispatch. *)
Theorem registry_invariant func more :
  OverloadItem.name (register_all func more).1 = f_name func
  ∧ OverloadItem.__len__ (register_all func more).1 = S (length more)
  ∧ zip (OverloadItem.overloads (register_all func more).1)
        (OverloadItem.signatures (register_all func more).1)
    = (fun f => (f, signature f)) <$> (func :: more).
Proof.
  unfold register_all, OverloadItem.__len__.
  destruct (register_fold more (OverloadItem.__init__ func) []) as (-> & -> & ->).
  split_and!; [done|done|]. simpl. f_equal.
  induction more as [|f more IH]; [done|]. simpl. f_equal. exact IH.
Qed.

(** ** Class bodies *)

(** X11. A successful assignment leaves every other name of the namespace as
    it was; after a function is assigned, the name holds a registry whose
    last candidate is that function. *)
Theorem setitem_touches_one_name (d d' : gmap string Slot) key value warnings :
  OverloadDict.__setitem__ d key value = Ok (d', warnings) →
  (∀ key', key' ≠ key → d' !! key' = d !! key')
  ∧ is_Some (d' !! key)
  ∧ (∀ func, value = AssignFunction func →
       ∃ item, d' !! key = Some (SlotItem item)
               ∧ last (OverloadItem.overloads item) = Some func).
Proof.
  unfold OverloadDict.__setitem__, OverloadDict.get. intros Hset.
  destruct value as [|v|func|obj];
    [| | |destruct (d !! key) as [[|v|item]|]; simpl in Hset;
          repeat case_match; simplify_eq;
          (split_and!; [|by rewrite lookup_insert_eq|done]);
          intros key' Hne; by rewrite lookup_insert_ne].
  - simplify_eq. split_and!; [|by rewrite lookup_insert_eq|done].
    intros key' Hne. by rewrite lookup_insert_ne.
  - simplify_eq. split_and!; [|by rewrite lookup_insert_eq|done].
    intros key' Hne. by rewrite lookup_insert_ne.
  - destruct (d !! key) as [[|v|item]|] eqn:Hkey; simplify_eq/=.
    + split_and!; [|by rewrite lookup_insert_eq|].
      * intros key' Hne. by rewrite lookup_insert_ne.
      * intros f [= <-]. eexists. by rewrite lookup_insert_eq.
    + split_and!; [|by rewrite lookup_insert_eq|].
      * intros key' Hne. by rewrite lookup_insert_ne.
      * intros f [= <-]. eexists. rewrite lookup_insert_eq. split; [done|].
        simpl. apply last_snoc.
    + split_and!; [|by rewrite lookup_insert_eq|].
      * intros key' Hne. by rewrite lookup_insert_ne.
      * intros f [= <-]. eexists. by rewrite lookup_insert_eq.
Qed.

Lemma setitem_touches_one_name_witness :
  OverloadDict.__setitem__ Samples.class_body_with_f "f"
    (AssignFunction Samples.f_int_or_str)
  = Ok (<["f" := SlotItem (register_all Samples.f_int [Samples.f_int_or_str]).1]>
          Samples.class_body_with_f,
        [ConflictingOverloadWarning "f" (signature Samples.f_int_or_str)
           (signature Samples.f_int)])
  ∧ ∀ key', key' ≠ "f" →
      (<["f" := SlotItem (register_all Samples.f_int [Samples.f_int_or_str]).1]>
         Samples.class_body_with_f : gmap string Slot) !! key'
      = Samples.class_body_with_f !! key'.
Proof.
  split; [reflexivity|].
  exact (proj1 (setitem_touches_one_name Samples.class_body_with_f _ "f"
                  (AssignFunction Samples.f_int_or_str) _ eq_refl)).
Defined.

Lemma functions_of_cons key k value body :
  functions_of key ((k, value) :: body)
  = match value with
    | AssignFunction func =>
        if decide (k = key) then func :: functions_of key body else functions_of key body
    | _ => functions_of key body
    end.
Proof.
  unfold functions_of. simpl. destruct value as [|v|func|obj]; try done.
  by destruct (decide (k = key)).
Qed.

Lemma functions_of_assigned key func body :
  (key, AssignFunction func) ∈ body → functions_of key body ≠ [].
Proof.
  induction body as [|[k value] rest IH]; intros Hin.
  - by apply not_elem_of_nil in Hin.
  - rewrite functions_of_cons. apply elem_of_cons in Hin as [Heq|Hin].
    + simplify_eq. by rewrite decide_True by done.
    + specialize (IH Hin). destruct value as [| |f|obj]; try done.
      by destruct (decide (k = key)).
Qed.

Lemma exec_class_body_functions body :
  ∀ (d : gmap string Slot) warnings,
    (∀ key obj, (key, AssignCallable obj) ∉ body) →
    (∀ key value, (key, value) ∈ body → callable value = false →
                  functions_of key body = []) →
    (∀ key, functions_of key body ≠ [] →
            d !! key = None ∨ ∃ item, d !! key = Some (SlotItem item)) →
    ∃ d' warnings',
      exec_class_body body d warnings = Ok (d', warnings')
      ∧ (∀ key, functions_of key body ≠ [] →
           d' !! key
           = match d !! key with
             | Some (SlotItem item) =>
                 Some (SlotItem (append_all item (functions_of key body)))
             | _ => SlotItem <$> registry_of (functions_of key body)
             end)
      ∧ (∀ key, (∀ value, (key, value) ∉ body) → d' !! key = d !! key).
Proof.
  induction body as [|[k value] rest IH]; intros d warnings Hinspect Hdata Hslots.
  { exists d, warnings. split_and!; done. }
  assert (Hinspect' : ∀ key obj, (key, AssignCallable obj) ∉ rest).
  { intros key obj Hin. apply (Hinspect key obj). by right. }
  assert (Hdata' : callable value = true ∨ functions_of k rest = [] →
            ∀ key v', (key, v') ∈ rest → callable v' = false →
                      functions_of key rest = []).
  { intros Hvalue key v' Hin Hcall.
    pose proof (Hdata key v' (list_elem_of_further _ _ _ Hin) Hcall) as Hnil.
    rewrite functions_of_cons in Hnil.
    destruct value as [| |func|obj]; try done. by destruct (decide (k = key)). }
  assert (Hstep : ∀ slot d' warnings',
            callable value = false ∨ (∃ item, slot = SlotItem item) →
            (∀ key, key ≠ k → functions_of key ((k, value) :: rest) = functions_of key rest) →
            exec_class_body rest (<[k := slot]> d) (warnings ++ []) = Ok (d', warnings') →
            (∀ key, functions_of key rest ≠ [] →
               d' !! key
               = match <[k := slot]> d !! key with
                 | Some (SlotItem item) =>
                     Some (SlotItem (append_all item (functions_of key rest)))
                 | _ => SlotItem <$> registry_of (functions_of key rest)
                 end) →
            (∀ key, (∀ v, (key, v) ∉ rest) → d' !! key = <[k := slot]> d !! key) →
            (∀ key, key ≠ k → functions_of key ((k, value) :: rest) ≠ [] →
               d' !! key
               = match d !! key with
                 | Some (SlotItem item) =>
                     Some (SlotItem (append_all item
                                       (functions_of key ((k, value) :: rest))))
                 | _ => SlotItem <$> registry_of (functions_of key ((k, value) :: rest))
                 end)
            ∧ (∀ key, (∀ v, (key, v) ∉ (k, value) :: rest) → d' !! key = d !! key)).
  { intros slot d' ws' _ Hother _ HA HB. split.
    - intros key Hne Hkey. rewrite (Hother key Hne) in *.
      rewrite (HA key Hkey). by rewrite lookup_insert_ne by done.
    - intros key Hunassigned.
      assert (key ≠ k) by (intros ->; apply (Hunassigned value); by left).
      rewrite HB, lookup_insert_ne; [done|done|].
      intros v Hin. apply (Hunassigned v). by right. }
  assert (Hother : ∀ key, key ≠ k →
            functions_of key ((k, value) :: rest) = functions_of key rest).
  { intros key Hne. rewrite functions_of_cons. destruct value as [| |func|obj]; try done.
    by rewrite decide_False by done. }
  destruct (decide (callable value = false)) as [Hcall|Hcall].
  - (* a non-callable value: stored as it is, and no function has this name *)
    assert (Hk : functions_of k rest = []).
    { pose proof (Hdata k value (list_elem_of_here _ _) Hcall) as Hnil.
      rewrite functions_of_cons in Hnil. by destruct value. }
    assert (Hset : ∃ slot, OverloadDict.__setitem__ d k value = Ok (<[k := slot]> d, [])).
    { destruct value; try done; eexists; reflexivity. }
    destruct Hset as [slot Hset]. cbn [exec_class_body]. rewrite Hset.
    destruct (IH (<[k := slot]> d) (warnings ++ [])) as (d' & ws' & Hexec & HA & HB).
    + exact Hinspect'.
    + apply Hdata'. by right.
    + intros key Hkey. rewrite lookup_insert_ne by congruence.
      apply Hslots. rewrite Hother by congruence. done.
    + exists d', ws'. split; [done|].
      destruct (Hstep slot d' ws' (or_introl Hcall) Hother Hexec HA HB) as [HA' HB'].
      split; [|done]. intros key Hkey. apply HA'; [|done].
      intros ->. rewrite functions_of_cons in Hkey. by destruct value.
  - (* a function *)
    destruct value as [| |func|obj]; try done;
      [|exfalso; apply (Hinspect k obj); by left]. clear Hcall.
    assert (Hfs : functions_of k ((k, AssignFunction func) :: rest)
                  = func :: functions_of k rest).
    { rewrite functions_of_cons. by rewrite decide_True by done. }
    assert (Hset : ∃ first warnings1,
              OverloadDict.__setitem__ d k (AssignFunction func)
              = Ok (<[k := SlotItem first]> d, warnings1)
              ∧ match d !! k with
                | Some (SlotItem item) =>
                    Some (SlotItem (append_all item (func :: functions_of k rest)))
                | _ => SlotItem <$> registry_of (func :: functions_of k rest)
                end
                = Some (SlotItem (append_all first (functions_of k rest)))).
    { unfold OverloadDict.__setitem__, OverloadDict.get.
      destruct (Hslots k) as [Hnone|[item Hitem]]; [by rewrite Hfs| |].
      - rewrite Hnone. simpl. eexists _, _. split; [done|].
        by rewrite register_all_append_all.
      - rewrite Hitem. simpl. eexists _, _. split; done. }
    destruct Hset as (first & ws1 & Hset & Hfirst). cbn [exec_class_body]. rewrite Hset.
    destruct (IH (<[k := SlotItem first]> d) (warnings ++ ws1))
      as (d' & ws' & Hexec & HA & HB).
    + exact Hinspect'.
    + apply Hdata'. by left.
    + intros key Hkey. destruct (decide (k = key)) as [->|Hne].
      * rewrite lookup_insert_eq. eauto.
      * rewrite lookup_insert_ne by done. apply Hslots. by rewrite Hother.
    + exists d', ws'. split; [done|]. split.
      * intros key Hkey. destruct (decide (key = k)) as [->|Hne].
        -- rewrite Hfs, Hfirst.
           destruct (functions_of k rest) as [|f more] eqn:Hrest.
           ++ rewrite HB, lookup_insert_eq; [done|].
              intros v Hin. destruct v as [| |f|obj]; [| | |by apply Hinspect' in Hin].
              ** pose proof (Hdata k AssignNone (list_elem_of_further _ _ _ Hin) eq_refl).
                 congruence.
              ** pose proof (Hdata k (AssignData v) (list_elem_of_further _ _ _ Hin)
                               eq_refl). congruence.
              ** by apply functions_of_assigned in Hin.
           ++ rewrite HA by (by rewrite Hrest). by rewrite lookup_insert_eq, Hrest.
        -- rewrite Hother in * by done. rewrite (HA key Hkey).
           by rewrite lookup_insert_ne by done.
      * intros key Hunassigned.
        assert (key ≠ k) by (intros ->; apply (Hunassigned (AssignFunction func)); by left).
        rewrite HB, lookup_insert_ne; [done|done|].
        intros v Hin. apply (Hunassigned v). by right.
Qed.

(** X12. A class body whose callables are all functions, and in which no
    name is given both a function and a non-callable value, runs to its end
    without an exception, and leaves under
    every name it defines functions for the registry of exactly those
    functions, in the order of their definitions. *)
Theorem class_body_builds_registries body :
  (∀ key obj, (key, AssignCallable obj) ∉ body) →
  (∀ key value, (key, value) ∈ body → callable value = false →
                functions_of key body = []) →
  ∃ namespace warnings,
    exec_class_body body OverloadMeta.__prepare__ [] = Ok (namespace, warnings)
    ∧ (∀ key, functions_of key body ≠ [] →
         namespace !! key = SlotItem <$> registry_of (functions_of key body))
    ∧ (∀ key, (∀ value, (key, value) ∉ body) → namespace !! key = None).
Proof.
  intros Hinspect Hdata.
  destruct (exec_class_body_functions body OverloadMeta.__prepare__ [] Hinspect Hdata)
    as (namespace & warnings & Hexec & HA & HB).
  { intros key _. left. apply lookup_empty. }
  exists namespace, warnings. split_and!; [done| |].
  - intros key Hkey. rewrite (HA key Hkey).
    unfold OverloadMeta.__prepare__. by rewrite lookup_empty.
  - intros key Hkey. rewrite (HB key Hkey). apply lookup_empty.
Qed.

Lemma class_body_builds_registries_witness :
  ∃ namespace warnings,
    exec_class_body Samples.class_body OverloadMeta.__prepare__ []
    = Ok (namespace, warnings)
    ∧ namespace !! "f"
      = Some (SlotItem (register_all Samples.f_int [Samples.f_int_or_str]).1)
    ∧ namespace !! "g" = Some (SlotItem (OverloadItem.__init__ Samples.g_ints)).
Proof.
  assert (Hdata : ∀ key value, (key, value) ∈ Samples.class_body →
            callable value = false → functions_of key Samples.class_body = []).
  { intros key value Hin Hcall. unfold Samples.class_body in Hin.
    repeat (apply elem_of_cons in Hin as [Heq|Hin]; [by simplify_eq|]).
    by apply not_elem_of_nil in Hin. }
  assert (Hinspect : ∀ key obj, (key, AssignCallable obj) ∉ Samples.class_body).
  { intros key obj Hin. unfold Samples.class_body in Hin.
    repeat (apply elem_of_cons in Hin as [Heq|Hin]; [by simplify_eq|]).
    by apply not_elem_of_nil in Hin. }
  destruct (class_body_builds_registries Samples.class_body Hinspect Hdata)
    as (namespace & warnings & Hexec & Hfunctions & _).
  exists namespace, warnings. split_and!; [exact Hexec| |].
  - by rewrite (Hfunctions "f").
  - by rewrite (Hfunctions "g").
Defined.

(** [T = int] in a class body: [int] is callable, so the assignment goes to
    [OverloadItem(int)], where [inspect.signature(int)] raises [ValueError];
    the class statement ends in that exception. *)
Example class_body_with_a_type_alias_raises :
  exec_class_body
    [("f", AssignFunction Samples.f_int); ("T", AssignCallable Samples.the_class_int)]
    OverloadMeta.__prepare__ []
  = Err ValueError.
Proof. reflexivity. Qed.

(** A [functools.partial] object: [AttributeError] as a first definition; as
    a later one it is appended when its signature overlaps none of the
    stored ones, and [AttributeError] again when a warning has to name it. *)
Example partial_object_in_a_class_body :
  OverloadDict.__setitem__ ∅ "f" (AssignCallable Samples.a_partial) = Err AttributeError
  ∧ (∃ item,
       OverloadDict.__setitem__ Samples.class_body_with_f "f"
         (AssignCallable Samples.a_partial)
       = Ok (<["f" := SlotItem item]> Samples.class_body_with_f, [])
       ∧ OverloadItem.__len__ item = 2%nat)
  ∧ OverloadDict.__setitem__
      {["f" := SlotItem (OverloadItem.__init__ Samples.f_int_or_str)]} "f"
      (AssignCallable Samples.a_partial) = Err AttributeError.
Proof. split_and!; [reflexivity|eexists; split; reflexivity|reflexivity]. Qed.

Lemma OverloadItem_of_object_raises obj e :
  OverloadItem_of_object obj = Err e
  ↔ (o_name obj = None ∧ e = AttributeError)
    ∨ (is_Some (o_name obj) ∧ o_signature obj = Err e)
    ∨ (is_Some (o_name obj) ∧ (∃ sig, o_signature obj = Ok sig)
       ∧ o_attributes obj = None ∧ e = AttributeError).
Proof.
  unfold OverloadItem_of_object.
  destruct (o_name obj) as [name|]; [|split; [intros [= <-]; by left|]].
  - destruct (o_signature obj) as [sig|e'].
    + destruct (o_attributes obj) as [attrs|].
      * split; [done|]. intros [[? _]|[[_ ?]|(_ & _ & ? & _)]]; done.
      * split; [intros [= <-]; right; right; eauto|].
        intros [[? _]|[[_ ?]|(_ & _ & _ & ->)]]; done.
    + split; [intros [= <-]; right; left; eauto|].
      intros [[? _]|[[_ [= ->]]|(_ & [sig ?] & _)]]; done.
  - intros [[_ ->]|[[[? ?] _]|([? ?] & _)]]; done.
Qed.

Lemma append_object_raises item obj e :
  append_object item obj = Err e
  ↔ o_signature obj = Err e
    ∨ (∃ sig existing,
         o_signature obj = Ok sig ∧ existing ∈ OverloadItem.signatures item
         ∧ _overlap_signature sig existing = true
         ∧ o_name obj = None ∧ e = AttributeError).
Proof.
  unfold append_object, OverloadItem.append.
  destruct (o_signature obj) as [sig|e'];
    [|split; [intros [= <-]; by left|intros [[= ->]|(? & ? & ? & _)]; done]].
  unfold signature. cbn [f_signature stored_function].
  destruct (filter (fun existing_sig => _overlap_signature sig existing_sig = true)
              (OverloadItem.signatures item)) as [|existing overlapping] eqn:Hfilter.
  - split; [by destruct (o_name obj)|].
    intros [?|(sig' & existing & [= <-] & Hin & Hoverlap & _)]; [done|].
    assert (Hin' : existing ∈ filter
              (fun existing_sig => _overlap_signature sig existing_sig = true)
              (OverloadItem.signatures item)) by (by apply list_elem_of_filter).
    rewrite Hfilter in Hin'. by apply not_elem_of_nil in Hin'.
  - assert (Hin : existing ∈ filter
              (fun existing_sig => _overlap_signature sig existing_sig = true)
              (OverloadItem.signatures item)) by (rewrite Hfilter; by left).
    apply list_elem_of_filter in Hin as [Hoverlap Hin].
    destruct (o_name obj) as [name|]; simpl.
    + split; [done|]. intros [?|(? & ? & _ & _ & _ & ? & _)]; done.
    + split; [intros [= <-]; right; by exists sig, existing|].
      by intros [?|(? & ? & _ & _ & _ & _ & ->)].
Qed.

(** X13. An assignment in a class body raises in these cases only.  A
    callable assigned to a name that holds a non-callable value other than
    [None] raises [TypeError].  A callable that is not a function, assigned to
    a name that is free or holds [None], raises [AttributeError] when it has
    no [__name__], what [inspect.signature] raises when that raises, and
    [AttributeError] when it lacks another attribute of a function; assigned
    to a name that holds a registry, it raises what [inspect.signature]
    raises, or [AttributeError] when it has no [__name__] and its signature
    overlaps a registered one.  A function raises in the first case only, and
    a non-callable value never. *)
Theorem setitem_raises_iff (d : gmap string Slot) key value e :
  OverloadDict.__setitem__ d key value = Err e
  ↔ (e = TypeError ∧ callable value = true ∧ ∃ v, d !! key = Some (SlotData v))
    ∨ (∃ obj,
         value = AssignCallable obj
         ∧ (d !! key = None ∨ d !! key = Some SlotNone)
         ∧ ((o_name obj = None ∧ e = AttributeError)
            ∨ (is_Some (o_name obj) ∧ o_signature obj = Err e)
            ∨ (is_Some (o_name obj) ∧ (∃ sig, o_signature obj = Ok sig)
               ∧ o_attributes obj = None ∧ e = AttributeError)))
    ∨ (∃ obj item,
         value = AssignCallable obj
         ∧ d !! key = Some (SlotItem item)
         ∧ (o_signature obj = Err e
            ∨ ∃ sig existing,
                o_signature obj = Ok sig ∧ existing ∈ OverloadItem.signatures item
                ∧ _overlap_signature sig existing = true
                ∧ o_name obj = None ∧ e = AttributeError)).
Proof.
  unfold OverloadDict.__setitem__, OverloadDict.get. split.
  - destruct value as [|v|func|obj]; try done.
    + destruct (d !! key) as [[|v|item]|]; simpl; try done.
      intros [= <-]. left. eauto.
    + destruct (d !! key) as [[|v|item]|] eqn:Hkey; simpl.
      * destruct (OverloadItem_of_object obj) as [item|e'] eqn:Hnew; [done|].
        intros [= <-]. right; left. exists obj. split_and!; [done|by right|].
        by apply OverloadItem_of_object_raises.
      * intros [= <-]. left. eauto.
      * destruct (append_object item obj) as [[item' ws]|e'] eqn:Happend; [done|].
        intros [= <-]. right; right. exists obj, item. split_and!; [done|done|].
        by apply append_object_raises.
      * destruct (OverloadItem_of_object obj) as [item|e'] eqn:Hnew; [done|].
        intros [= <-]. right; left. exists obj. split_and!; [done|by left|].
        by apply OverloadItem_of_object_raises.
  - intros [(-> & Hcall & v & Hkey)|[(obj & -> & Hkey & Hnew)|(obj & item & -> & Hkey & Happend)]].
    + destruct value as [|v'|func|obj]; try done; by rewrite Hkey.
    + apply OverloadItem_of_object_raises in Hnew.
      destruct Hkey as [-> | ->]; simpl; by rewrite Hnew.
    + apply append_object_raises in Happend. rewrite Hkey. simpl. by rewrite Happend.
Qed.
(** ** The decorator *)

Lemma overload_lookup (table : gmap string OverloadItem.t) func :
  (overload table func).1.1
  = <[overload_key func :=
        match table !! overload_key func with
        | None => OverloadItem.__init__ func
        | Some current => (OverloadItem.append current func).1
        end]> table
  ∧ (overload table func).1.2
    = match table !! overload_key func with
      | None => OverloadItem.__init__ func
      | Some current => (OverloadItem.append current func).1
      end.
Proof.
  unfold overload. fold (overload_key func).
  by destruct (table !! overload_key func).
Qed.

(** X14. The decorator returns the registry it has filed in the table under
    the function's key; the registry ends with the decorated function; and
    every other entry of the table is left as it was. *)
Theorem overload_files_under_key (table : gmap string OverloadItem.t) func :
  (overload table func).1.1 !! overload_key func = Some (overload table func).1.2
  ∧ last (OverloadItem.overloads (overload table func).1.2) = Some func
  ∧ (table !! overload_key func = None →
     (overload table func).1.2 = OverloadItem.__init__ func
     ∧ (overload table func).2 = [])
  ∧ ∀ name, name ≠ overload_key func →
            (overload table func).1.1 !! name = table !! name.
Proof.
  destruct (overload_lookup table func) as [Htable Hitem].
  split_and!.
  - by rewrite Htable, Hitem, lookup_insert_eq.
  - rewrite Hitem. destruct (table !! overload_key func); [apply last_snoc|done].
  - intros Hnone. unfold overload. fold (overload_key func). by rewrite Hnone.
  - intros name Hne. by rewrite Htable, lookup_insert_ne.
Qed.

Lemma overload_all_lookup funcs :
  ∀ (table : gmap string OverloadItem.t) warnings key,
    (foldl (fun '(table, warnings) func =>
              let '(table', _, new_warnings) := overload table func in
              (table', warnings ++ new_warnings))
           (table, warnings) funcs).1 !! key
    = match table !! key with
      | Some item =>
          Some (append_all item (filter (fun func => overload_key func = key) funcs))
      | None => registry_of (filter (fun func => overload_key func = key) funcs)
      end.
Proof.
  induction funcs as [|func funcs IH]; intros table warnings key.
  { simpl. by destruct (table !! key). }
  cbn [foldl]. destruct (overload_lookup table func) as [Htable Hitem].
  destruct (overload table func) as [[table' item] ws] eqn:Hoverload.
  simpl in Htable, Hitem. rewrite IH, filter_cons.
  destruct (decide (overload_key func = key)) as [<-|Hne].
  - rewrite Htable, lookup_insert_eq.
    destruct (table !! overload_key func) as [current|]; simpl; [done|].
    by rewrite register_all_append_all.
  - by rewrite Htable, lookup_insert_ne.
Qed.

(** X15. After any sequence of decorations, each key of the table holds the
    registry of the decorated functions with that key, in decoration order,
    appended to what the table held before. *)
Theorem overload_all_registries (table : gmap string OverloadItem.t) funcs key :
  (overload_all table funcs).1 !! key
  = match table !! key with
    | Some item =>
        Some (append_all item (filter (fun func => overload_key func = key) funcs))
    | None => registry_of (filter (fun func => overload_key func = key) funcs)
    end.
Proof. apply overload_all_lookup. Qed.

Lemma string_app_assoc (a b c : string) : ((a +:+ b) +:+ c = a +:+ (b +:+ c))%string.
Proof.
  induction a as [|ch a IH]; [done|].
  change (String ch ((a +:+ b) +:+ c) = String ch (a +:+ (b +:+ c)))%string.
  by rewrite IH.
Qed.

(** X16. The table key is the module path and the qualified name joined by
    a dot, so a function [b] of module [m.a] and a function [a.b] of module
    [m] (a function [b] of a class [a]) get one key: decorated one after the
    other they end up in one registry. *)
Theorem overload_key_collision (table : gmap string OverloadItem.t) f g m a b :
  f_module f = (m +:+ "." +:+ a)%string → f_qualname f = b →
  f_module g = m → f_qualname g = (a +:+ "." +:+ b)%string →
  table !! overload_key f = None →
  overload_key f = overload_key g
  ∧ (overload_all table [f; g]).1 !! overload_key g = Some (register_all f [g]).1.
Proof.
  intros Hfm Hfq Hgm Hgq Hnone.
  assert (Hkey : overload_key f = overload_key g).
  { unfold overload_key. rewrite Hfm, Hfq, Hgm, Hgq.
    by rewrite !string_app_assoc. }
  split; [done|].
  unfold overload_all. rewrite overload_all_lookup, <- Hkey, Hnone.
  rewrite !filter_cons, filter_nil, Hkey.
  by rewrite !decide_True by done.
Qed.

Lemma overload_key_collision_witness :
  overload_key Samples.pkg_util_f = overload_key Samples.pkg_util_dot_f
  ∧ (overload_all ∅ [Samples.pkg_util_f; Samples.pkg_util_dot_f]).1
      !! overload_key Samples.pkg_util_dot_f
    = Some (register_all Samples.pkg_util_f [Samples.pkg_util_dot_f]).1.
Proof.
  exact (overload_key_collision ∅ Samples.pkg_util_f Samples.pkg_util_dot_f
           "pkg" "util" "f" eq_refl eq_refl eq_refl eq_refl (lookup_empty _)).
Defined.

(** ** More on dispatch *)

Lemma signature_matches_loop_raises sig items score e :
  signature_matches_loop sig items score = Err e → e ≠ NoMatchingOverloadException.
Proof.
  revert score. induction items as [|[name arg] rest IH]; intros score; simpl; [done|].
  destruct (get_parameter sig name) as [param|]; [|by intros [= <-]].
  destruct (_score_any_type_hint arg param) as [partial|e'] eqn:Hpartial.
  - destruct (partial <? 0); [done|]. apply IH.
  - intros [= <-]. unfold _score_any_type_hint in Hpartial.
    assert (Hsum : ∀ values, sum_scores (p_annotation param) values = Err e' →
              e' = TypeError).
    { clear. induction values as [|a values IH]; [done|]. cbn [sum_scores].
      destruct (_score_type_hint a (p_annotation param)) as [z|e] eqn:Ha.
      - destruct (sum_scores _ values); [done|]. intros [= ->]. by apply IH.
      - intros [= ->]. by apply (score_type_hint_raises a (p_annotation param)). }
    assert (e' = TypeError) as ->; [|done].
    destruct (p_kind param), arg; try done;
      try (by apply Hsum in Hpartial);
      by apply score_type_hint_raises in Hpartial.
Qed.

Lemma candidate_score_raises try_bind candidate e :
  candidate_score try_bind candidate = Some (Err e) → e ≠ NoMatchingOverloadException.
Proof.
  unfold candidate_score. destruct (try_bind candidate.2) as [b|]; [|done].
  simpl. intros [= Hscore]. by apply signature_matches_loop_raises in Hscore.
Qed.

(** X17. [best_match] raises [NoMatchingOverloadException] exactly when no
    candidate binds with a non-negative score, for both dispatchers; what it
    returns otherwise is one of the registered functions. *)
Theorem best_match_fails_iff disp args kwargs :
  (best_match_of disp args kwargs = Err NoMatchingOverloadException
   ↔ no_candidate_matches (try_bind_of disp args kwargs) (candidates_of disp))
  ∧ (∀ func, best_match_of disp args kwargs = Ok func →
             func ∈ (candidates_of disp).*1).
Proof.
  rewrite best_match_of_loop.
  pose proof (best_match_loop_spec (try_bind_of disp args kwargs) (candidates_of disp)
                (-1) None) as Hspec.
  destruct (best_match_loop _ _ _) as [best|e].
  - destruct Hspec
      as [Hraises [[-> Hall]|(i & f & sg & s & Hi & Hs & -> & Hlt & Hall)]]; simpl.
    + split; [|done]. split; [|done]. intros _ candidate outcome Hin Hscore.
      destruct outcome as [score|e]; [|by destruct (Hraises candidate e Hin)].
      apply list_elem_of_lookup_1 in Hin as [j Hj].
      specialize (Hall j candidate score Hj Hscore).
      exists score. split; [done|lia].
    + split.
      * split; [done|]. intros Hno. apply list_elem_of_lookup_2 in Hi.
        destruct (Hno _ _ Hi Hs) as (s' & Heq & Hneg). injection Heq as <-. lia.
      * intros func [= <-]. apply list_elem_of_lookup_2 in Hi.
        apply list_elem_of_fmap. by exists (f, sg).
  - destruct Hspec as (i & candidate & Hi & He & _). split; [|done]. split.
    + intros [= ->]. by apply candidate_score_raises in He.
    + intros Hno. apply list_elem_of_lookup_2 in Hi.
      by destruct (Hno _ _ Hi He) as (s' & Heq & _).
Qed.

(** X18. [help] resolves a call like [__call__] does: it returns the
    docstring of the very function the call would run, and raises what the
    call would raise when nothing matches. *)
Theorem help_agrees_with_call item args kwargs :
  match OverloadItem.help item args kwargs with
  | Ok doc =>
      ∃ func,
        OverloadItem.__call__ item args kwargs
        = mkRun [(func, args, kwargs)] (call func args kwargs)
        ∧ doc = default EmptyString (f_doc func)
  | Err e => OverloadItem.__call__ item args kwargs = mkRun [] (Raised e)
  end.
Proof.
  unfold OverloadItem.help, OverloadItem.__call__, FunctionOverloadDispatcher.__call__.
  destruct (FunctionOverloadDispatcher.best_match _ args kwargs) as [func|e]; [|done].
  exists func. split; [done|].
  destruct (f_doc func) as [doc|]; [|done]. simpl.
  by destruct (decide (doc = EmptyString)) as [->|].
Qed.

(** X19. A method call that some local candidate accepts is the call of the
    registry as a plain function with the instance as first argument: same
    function called, same arguments, same outcome, and the ancestor is not
    consulted. *)
Theorem bound_call_is_function_call getattr_super item instance owner_cls args kwargs :
  OverloadItem.__call__ item (instance :: args) kwargs
  ≠ mkRun [] (Raised NoMatchingOverloadException) →
  BoundOverloadDispatcher.__call__ getattr_super
    (OverloadItem.__get__ item instance owner_cls) args kwargs
  = OverloadItem.__call__ item (instance :: args) kwargs.
Proof.
  unfold OverloadItem.__call__, FunctionOverloadDispatcher.__call__,
    BoundOverloadDispatcher.__call__, OverloadItem.__get__.
  change (BoundOverloadDispatcher.best_match _ args kwargs)
    with (FunctionOverloadDispatcher.best_match
            (FunctionOverloadDispatcher.mk (OverloadItem.name item)
               (OverloadItem.overloads item) (OverloadItem.signatures item))
            (instance :: args) kwargs).
  destruct (FunctionOverloadDispatcher.best_match _ (instance :: args) kwargs)
    as [func|e]; [done|].
  by destruct e.
Qed.

Lemma bound_call_is_function_call_witness :
  OverloadItem.__call__ (OverloadItem.__init__ Samples.m_int)
    [Samples.an_object 0; Samples.an_int 1] []
  ≠ mkRun [] (Raised NoMatchingOverloadException)
  ∧ BoundOverloadDispatcher.__call__
      (Samples.parent_with Samples.parent_m_two_args)
      (OverloadItem.__get__ (OverloadItem.__init__ Samples.m_int)
         (Samples.an_object 0) "Owner") [Samples.an_int 1] []
    = mkRun [(Samples.m_int, [Samples.an_object 0; Samples.an_int 1], [])]
            (Returned (Samples.an_int 7)).
Proof.
  assert (Hcall : OverloadItem.__call__ (OverloadItem.__init__ Samples.m_int)
                    [Samples.an_object 0; Samples.an_int 1] []
                  ≠ mkRun [] (Raised NoMatchingOverloadException)) by done.
  split; [exact Hcall|].
  rewrite (bound_call_is_function_call
             (Samples.parent_with Samples.parent_m_two_args)
             (OverloadItem.__init__ Samples.m_int) (Samples.an_object 0) "Owner"
             [Samples.an_int 1] [] Hcall).
  reflexivity.
Defined.

Lemma best_match_loop_snoc try_bind candidates func sig :
  ∀ best,
    best_match_loop try_bind (candidates ++ [(func, sig)]) best
    = match best_match_loop try_bind candidates best with
      | Err e => Err e
      | Ok old =>
          match try_bind sig with
          | None => Ok old
          | Some bound_args =>
              match _signature_matches sig bound_args with
              | Err e => Err e
              | Ok score => if score >? old.1 then Ok (score, Some func) else Ok old
              end
          end
      end.
Proof.
  induction candidates as [|[f sg] rest IH]; intros best; simpl.
  - destruct (try_bind sig) as [b|]; [|done].
    destruct (_signature_matches sig b) as [score|e]; [|done].
    by destruct (_ >? _).
  - destruct (try_bind sg) as [b|]; [|apply IH].
    destruct (_signature_matches sg b) as [score|e]; [|done].
    destruct (_ >? _); apply IH.
Qed.

Lemma zip_snoc {A B} (l : list A) (k : list B) x y :
  length l = length k → zip (l ++ [x]) (k ++ [y]) = zip l k ++ [(x, y)].
Proof.
  revert k. induction l as [|a l IH]; intros [|b k] Hlen; simplify_eq/=; [done|].
  f_equal. by apply IH.
Qed.

(** X20. Registering a further function changes how a call resolves only if
    the new function binds and scores strictly higher than every candidate
    registered before: when it does not bind, scores REJECT, or is matched or
    beaten by an earlier candidate, the call resolves as before; when it
    binds with a non-negative score above all earlier scores, it is chosen. *)
Theorem later_registration_needs_higher_score item func args kwargs :
  registry_consistent (OverloadItem.overloads item) (OverloadItem.signatures item) →
  let try_bind := fun sig => bind sig args kwargs in
  let earlier := zip (OverloadItem.overloads item) (OverloadItem.signatures item) in
  ((∀ outcome, candidate_score try_bind (func, signature func) = Some outcome →
      ∃ score,
        outcome = Ok score
        ∧ (score = -1
           ∨ ∃ candidate score',
               candidate ∈ earlier
               ∧ candidate_score try_bind candidate = Some (Ok score')
               ∧ score ≤ score')) →
   OverloadItem.__call__ (OverloadItem.append item func).1 args kwargs
   = OverloadItem.__call__ item args kwargs)
  ∧ (∀ score, candidate_score try_bind (func, signature func) = Some (Ok score) →
       0 ≤ score →
       (∀ candidate outcome,
          candidate ∈ earlier → candidate_score try_bind candidate = Some outcome →
          ∃ score', outcome = Ok score' ∧ score' < score) →
       OverloadItem.__call__ (OverloadItem.append item func).1 args kwargs
       = mkRun [(func, args, kwargs)] (call func args kwargs)).
Proof.
  intros Hcons try_bind earlier.
  assert (Hlen : length (OverloadItem.overloads item)
                 = length (OverloadItem.signatures item)).
  { unfold registry_consistent in Hcons. by rewrite Hcons, length_fmap. }
  assert (Hrun : ∀ scan : Result (Z * option Callable),
            match (match scan with
                   | Err e => Err e
                   | Ok (_, None) => Err NoMatchingOverloadException
                   | Ok (_, Some winner) => Ok winner
                   end : Result Callable) with
            | Ok winner => mkRun [(winner, args, kwargs)] (call winner args kwargs)
            | Err e => mkRun [] (Raised e)
            end
            = match scan with
              | Err e => mkRun [] (Raised e)
              | Ok (_, None) => mkRun [] (Raised NoMatchingOverloadException)
              | Ok (_, Some winner) =>
                  mkRun [(winner, args, kwargs)] (call winner args kwargs)
              end).
  { by intros [[s [w|]]|e]. }
  assert (Hnew : OverloadItem.__call__ (OverloadItem.append item func).1 args kwargs
                 = match best_match_loop try_bind (earlier ++ [(func, signature func)])
                           (-1, None) with
                   | Err e => mkRun [] (Raised e)
                   | Ok (_, None) => mkRun [] (Raised NoMatchingOverloadException)
                   | Ok (_, Some winner) =>
                       mkRun [(winner, args, kwargs)] (call winner args kwargs)
                   end).
  { unfold OverloadItem.__call__, FunctionOverloadDispatcher.__call__,
      FunctionOverloadDispatcher.best_match. simpl.
    rewrite (zip_snoc _ _ _ _ Hlen). apply Hrun. }
  assert (Hold : OverloadItem.__call__ item args kwargs
                 = match best_match_loop try_bind earlier (-1, None) with
                   | Err e => mkRun [] (Raised e)
                   | Ok (_, None) => mkRun [] (Raised NoMatchingOverloadException)
                   | Ok (_, Some winner) =>
                       mkRun [(winner, args, kwargs)] (call winner args kwargs)
                   end).
  { unfold OverloadItem.__call__, FunctionOverloadDispatcher.__call__,
      FunctionOverloadDispatcher.best_match. simpl. apply Hrun. }
  rewrite Hnew, Hold, best_match_loop_snoc. clear Hnew Hold Hrun.
  assert (Hscore : candidate_score try_bind (func, signature func)
                   = _signature_matches (signature func)
                       <$> try_bind (signature func)) by done.
  pose proof (best_match_loop_spec try_bind earlier (-1) None) as Hspec.
  destruct (best_match_loop try_bind earlier (-1, None)) as [best|e].
  - destruct Hspec
      as [Hraises [[-> Hall]|(i & f & sg & s & Hi & Hs & -> & Hlt & Hall)]]; simpl.
    + (* nothing matched before *)
      split.
      * intros Hlow. destruct (try_bind (signature func)) as [b|]; [|done].
        destruct (Hlow _ Hscore) as (score & Heq & Hscore').
        rewrite Heq. simpl.
        destruct (Z.gtb_spec score (-1)) as [Hgt|]; [|done].
        destruct Hscore' as [?|(c & s' & Hin & Hs' & Hle)]; [lia|].
        apply list_elem_of_lookup_1 in Hin as [j Hj].
        specialize (Hall j c s' Hj Hs'). lia.
      * intros score Hsc Hpos _. rewrite Hscore in Hsc.
        destruct (try_bind (signature func)) as [b|]; [|done].
        simpl in Hsc. injection Hsc as Hsc. rewrite Hsc. simpl.
        destruct (Z.gtb_spec score (-1)); [done|lia].
    + (* [f] was chosen before, with the highest score [s] *)
      split.
      * intros Hlow. destruct (try_bind (signature func)) as [b|]; [|done].
        destruct (Hlow _ Hscore) as (score & Heq & Hscore').
        rewrite Heq. simpl.
        destruct (Z.gtb_spec score s) as [Hgt|]; [|done].
        destruct Hscore' as [?|(c & s' & Hin & Hs' & Hle)]; [lia|].
        apply list_elem_of_lookup_1 in Hin as [j Hj].
        destruct (Hall j c s' Hj Hs'). lia.
      * intros score Hsc Hpos Hbelow. rewrite Hscore in Hsc.
        apply list_elem_of_lookup_2 in Hi.
        destruct (Hbelow _ _ Hi Hs) as (s' & Heq & Hless). injection Heq as <-.
        destruct (try_bind (signature func)) as [b|]; [|done].
        simpl in Hsc. injection Hsc as Hsc. rewrite Hsc. simpl.
        destruct (Z.gtb_spec score s); [done|lia].
  - (* the scoring of an earlier candidate raises, before and after *)
    split; [done|]. intros score _ _ Hbelow.
    destruct Hspec as (i & candidate & Hi & He & _).
    apply list_elem_of_lookup_2 in Hi.
    by destruct (Hbelow _ _ Hi He) as (s' & Heq & _).
Qed.

(** After [f(x: int)], registering [f(x: int | str)] takes [f("a")] and
    leaves [f(5)], which both score 1 on, to the earlier function. *)
Lemma later_registration_needs_higher_score_witness :
  registry_consistent (OverloadItem.overloads (OverloadItem.__init__ Samples.f_int))
    (OverloadItem.signatures (OverloadItem.__init__ Samples.f_int))
  ∧ OverloadItem.__call__
      (OverloadItem.append (OverloadItem.__init__ Samples.f_int) Samples.f_int_or_str).1
      [Samples.a_str 0] []
    = mkRun [(Samples.f_int_or_str, [Samples.a_str 0], [])]
            (call Samples.f_int_or_str [Samples.a_str 0] []).
Proof.
  assert (Hcons : registry_consistent
            (OverloadItem.overloads (OverloadItem.__init__ Samples.f_int))
            (OverloadItem.signatures (OverloadItem.__init__ Samples.f_int)))
    by reflexivity.
  split; [exact Hcons|].
  apply (proj2 (later_registration_needs_higher_score
                  (OverloadItem.__init__ Samples.f_int) Samples.f_int_or_str
                  [Samples.a_str 0] [] Hcons) 1); [reflexivity|lia|].
  intros candidate outcome Hin Hscore.
  apply list_elem_of_singleton in Hin. subst candidate.
  vm_compute in Hscore. injection Hscore as <-. exists (-1). split; [done|lia].
Defined.

(** X21. A [TypeError] that comes out of a dispatcher was raised by the body
    of the selected candidate, or by the scoring of a candidate whose hint
    [isinstance] does not accept, in which case no function was called: a
    failed binding of a candidate, or anything that goes wrong with
    [TypeError] in the ancestor fallback, never reaches the caller as a
    [TypeError]. *)
Theorem TypeError_comes_from_body_or_scoring disp args kwargs :
  dispatcher_consistent disp →
  result (dispatch disp args kwargs) = Raised TypeError →
  (∃ func,
     best_match_of disp args kwargs = Ok func
     ∧ f_body func (call_args disp args) kwargs = Raised TypeError)
  ∨ (best_match_of disp args kwargs = Err TypeError
     ∧ dispatch disp args kwargs = mkRun [] (Raised TypeError)
     ∧ ∃ candidate,
         candidate ∈ candidates_of disp
         ∧ candidate_score (try_bind_of disp args kwargs) candidate
           = Some (Err TypeError)).
Proof.
  intros Hcons Hresult.
  destruct (best_match_of disp args kwargs) as [func|e] eqn:Hbest.
  - left. exists func. split; [done|].
    rewrite (dispatch_winner _ _ _ _ Hbest) in Hresult. simpl in Hresult.
    destruct (winner_binds _ _ _ _ Hcons Hbest) as [b Hb].
    unfold call in Hresult. by rewrite Hb in Hresult.
  - right. pose proof (best_match_of_raises _ _ _ _ Hbest) as Hraises.
    assert (He : e = TypeError ∧ dispatch disp args kwargs = mkRun [] (Raised TypeError)).
    { destruct disp as [d|gs d]; simpl in *.
      - unfold FunctionOverloadDispatcher.__call__ in *.
        rewrite Hbest in *. simpl in Hresult. by injection Hresult as ->.
      - unfold BoundOverloadDispatcher.__call__ in *. rewrite Hbest in *.
        destruct e as [| |name]; [done| |done].
        destruct (gs _ _ _) as [super_call|]; [|done].
        by destruct (call super_call args kwargs) as [v|[]]. }
    destruct He as [-> Hrun]. split_and!; [done|done|].
    by destruct Hraises as [?|Hcandidate].
Qed.

(** A method whose body raises [TypeError], called with a matching argument. *)
Lemma TypeError_comes_from_body_or_scoring_witness :
  dispatcher_consistent (Bound Samples.no_parent Samples.bound_m_TypeError)
  ∧ result (dispatch (Bound Samples.no_parent Samples.bound_m_TypeError)
              [Samples.an_int 1] []) = Raised TypeError
  ∧ ∃ func,
      best_match_of (Bound Samples.no_parent Samples.bound_m_TypeError)
        [Samples.an_int 1] [] = Ok func
      ∧ f_body func
          (call_args (Bound Samples.no_parent Samples.bound_m_TypeError)
             [Samples.an_int 1]) [] = Raised TypeError.
Proof.
  split_and!; [reflexivity|reflexivity|].
  destruct (TypeError_comes_from_body_or_scoring
              (Bound Samples.no_parent Samples.bound_m_TypeError) [Samples.an_int 1] []
              eq_refl eq_refl) as [Hbody|[Hscoring _]]; [exact Hbody|discriminate].
Defined.
Lemma annotations_compatible_members annotation other_annotation :
  annotations_compatible annotation other_annotation = true
  ↔ is_empty_or_Any (erase_origin annotation) = true
    ∨ is_empty_or_Any (erase_origin other_annotation) = true
    ∨ ∃ member, member ∈ hint_members (erase_origin annotation)
                ∧ member ∈ hint_members (erase_origin other_annotation).
Proof.
  unfold annotations_compatible, hint_members.
  destruct (is_empty_or_Any (erase_origin annotation)); [by split; auto|].
  destruct (is_empty_or_Any (erase_origin other_annotation)); [by split; auto|].
  cbn [orb].
  assert (Hright : ∀ P : Prop, P ↔ false = true ∨ false = true ∨ P)
    by (intros P; split; [auto|by intros [?|[?|?]]]).
  rewrite <- Hright.
  destruct (isinstance_UnionType (erase_origin annotation)),
    (isinstance_UnionType (erase_origin other_annotation)); cbn [orb];
    rewrite ?any_in_sorted; try done.
  rewrite bool_decide_eq_true. split.
  - intros Heq. exists (erase_origin annotation). rewrite <- Heq. split; by left.
  - intros (member & H1 & H2).
    apply list_elem_of_singleton in H1. apply list_elem_of_singleton in H2. congruence.
Qed.

(** X22. What the Conflict Detector decides: two signatures are reported
    exactly when the arity step lets them pass and, for every parameter name
    they share, one annotation is absent or [Any] or the two annotations have
    a member in common, where the members of a union are its arguments as
    written and any other annotation, stripped of its type arguments, is its
    own single member. *)
Theorem overlap_signature_iff sig1 sig2 :
  _overlap_signature sig1 sig2 = true
  ↔ arity_mismatch sig1 sig2 = false
    ∧ ∀ param other,
        param ∈ sig1 → get_parameter sig2 (p_name param) = Some other →
        is_empty_or_Any (erase_origin (p_annotation param)) = true
        ∨ is_empty_or_Any (erase_origin (p_annotation other)) = true
        ∨ ∃ member,
            member ∈ hint_members (erase_origin (p_annotation param))
            ∧ member ∈ hint_members (erase_origin (p_annotation other)).
Proof.
  unfold _overlap_signature. destruct (arity_mismatch sig1 sig2).
  { split; [done|]. by intros [? _]. }
  split.
  - intros Hloop. split; [done|]. intros param other Hin Hget.
    apply annotations_compatible_members.
    destruct (annotations_compatible (p_annotation param) (p_annotation other)) eqn:Hc;
      [done|].
    by rewrite (overlap_loop_false sig1 sig2 param other Hin Hget Hc) in Hloop.
  - intros [_ Hall]. apply overlap_loop_all. intros param other Hin Hget.
    apply annotations_compatible_members. by apply Hall.
Qed.

(** [(x: list[int])] against [(x: list[int] | None)] is not reported: the
    first annotation becomes [list], which is not among the members
    [list[int]] and [None] of the second. *)
Example generic_against_union_of_generic :
  _overlap_signature Samples.x_list_int Samples.x_list_int_or_None = false
  ∧ hint_members (erase_origin (HGeneric (HClass "list") [HClass "int"])) = [HClass "list"]
  ∧ _signature_matches Samples.x_list_int [("x", ASingle (Samples.a_list 0))] = Ok 1
  ∧ _signature_matches Samples.x_list_int_or_None [("x", ASingle (Samples.a_list 0))] = Ok 1.
Proof. split_and!; reflexivity. Qed.
